(** * Verification of [evaluate_20Q.py]

    A shallow embedding of the 20-Questions evaluation harness
    ([_normalize_answer], [_parse_guess_result], [run_single_game], [main])
    and the properties its specification states about it.

    Modelling conventions.
    - A Python [str] is a Rocq [string]; the case mappings [lower] and
      [casefold] and the whitespace test of [strip] are the ones Python
      applies to ASCII text (code points below 128, [PyStr.isascii]), on
      which [casefold] and [lower] agree.  Outside ASCII Python's functions
      do more (they fold the sharp s and the long s, and trim U+00A0, for
      instance), so a statement that depends on how text is folded or
      trimmed says for which text it is made.
    - A raw oracle response is a [PyVal]: [None], a [bool], an [int], a
      [str], a list, or a [dict] with string keys (kept as an association
      list in insertion order, keys distinct, lookup taking the binding
      found first).  Values are finite trees: a dict that contains itself,
      on which the recursion of [_normalize_answer] would not end, is not a
      [PyVal].
    - The agent returns text or nothing ([option string]); the lists of an
      [Observation] are read at the time of the call.
    - The two collaborators ([guesser_agent], [ValidatorModel]) are opaque
      and stateful: they are functions over an abstract world [W], and every
      call is recorded as an [Event], so that "which calls were made, with
      what, in which order" can be stated. *)

From Stdlib Require Import ZArith Ascii String List Lia Bool Floats Uint63 DecimalString.
From stdpp Require Import base list strings gmap sorting.

Import ListNotations.
Local Open Scope string_scope.
Local Open Scope list_scope.
Local Open Scope Z_scope.

(** ** Python strings (ASCII) *)

Module PyStr.

(** [str.isspace] on one ASCII character: TAB..CR, FS..US and SPACE. *)
Definition is_space (c : ascii) : bool :=
  let n := N_of_ascii c in
  ((9 <=? n) && (n <=? 13) || (28 <=? n) && (n <=? 32))%N.

(** [str.lower] on one ASCII character. *)
Definition lower_char (c : ascii) : ascii :=
  let n := N_of_ascii c in
  if ((65 <=? n) && (n <=? 90))%N then ascii_of_N (n + 32) else c.

Fixpoint lower (s : string) : string :=
  match s with
  | EmptyString => EmptyString
  | String c s' => String (lower_char c) (lower s')
  end.

(** On ASCII text [str.casefold] is [str.lower]. *)
Definition casefold (s : string) : string := lower s.

Fixpoint lstrip (s : string) : string :=
  match s with
  | EmptyString => EmptyString
  | String c s' => if is_space c then lstrip s' else s
  end.

Fixpoint rstrip (s : string) : string :=
  match s with
  | EmptyString => EmptyString
  | String c s' =>
      match rstrip s' with
      | EmptyString => if is_space c then EmptyString else String c EmptyString
      | r => String c r
      end
  end.

(** [str.strip()] with no argument. *)
Definition strip (s : string) : string := rstrip (lstrip s).

(** [s in (t1, ..., tn)] for a tuple of strings. *)
Fixpoint in_tuple (s : string) (t : list string) : bool :=
  match t with
  | [] => false
  | x :: t' => if String.eqb s x then true else in_tuple s t'
  end.

(** Truth value of a string: [bool(s)], also what [not s] and [s or d] test. *)
Definition truthy (s : string) : bool :=
  match s with EmptyString => false | _ => true end.

(** [s or d] *)
Definition or_else (s d : string) : string := if truthy s then s else d.


End PyStr.

(** ** Raw Python values returned by the oracle *)

#[warnings="-register-all"]
Inductive PyVal : Type :=
| VNone
| VBool (b : bool)
| VInt (n : Z)
| VStr (s : string)
| VList (l : list PyVal)
| VDict (d : list (string * PyVal)).

(** [key in d] and [d[key]] on a dict. *)
Fixpoint dict_get (key : string) (d : list (string * PyVal)) : option PyVal :=
  match d with
  | [] => None
  | (k, v) :: d' => if String.eqb key k then Some v else dict_get key d'
  end.

(** The loop [for key in keys: if key in d: return f(d[key])] followed by
    the fall-through value [dflt]. *)
Fixpoint for_key_in {A : Type} (f : PyVal -> A) (dflt : A)
    (keys : list string) (d : list (string * PyVal)) : A :=
  match keys with
  | [] => dflt
  | key :: keys' =>
      (fix find (e : list (string * PyVal)) : A :=
         match e with
         | [] => for_key_in f dflt keys' d
         | (k, v) :: e' => if String.eqb key k then f v else find e'
         end) d
  end.

(** [bool(v)] *)
Definition py_bool (v : PyVal) : bool :=
  match v with
  | VNone => false
  | VBool b => b
  | VInt n => negb (n =? 0)
  | VStr s => PyStr.truthy s
  | VList l => match l with [] => false | _ => true end
  | VDict d => match d with [] => false | _ => true end
  end.

(** ** The response normalizer *)

Definition answer_keys : list string :=
  ["answer"; "response"; "label"; "result"; "status"].

Definition guess_result_keys : list string :=
  ["correct"; "is_correct"; "match"; "result"].

Fixpoint _normalize_answer (ans : PyVal) : string :=
  match ans with
  | VBool b => if b then "yes" else "no"
  | VStr a =>
      let s := PyStr.lower (PyStr.strip a) in
      if PyStr.in_tuple s ["yes"; "y"; "true"; "1"] then "yes"
      else if PyStr.in_tuple s ["no"; "n"; "false"; "0"] then "no"
      else if PyStr.in_tuple s ["maybe"; "unsure"; "unknown"; "not sure"; "idk"]
      then "maybe"
      else "maybe"
  | VDict d => for_key_in _normalize_answer "maybe" answer_keys d
  | _ => "maybe"
  end.

Definition _parse_guess_result (res : PyVal) : bool :=
  match res with
  | VBool b => b
  | VStr r =>
      let s := PyStr.lower (PyStr.strip r) in
      PyStr.in_tuple s ["yes"; "correct"; "true"; "right"; "1"; "match"]
  | VDict d => for_key_in py_bool false guess_result_keys d
  | _ => false
  end.

(** ** The collaborators and the recorded calls *)

Definition ASK : string := "ask".
Definition GUESS : string := "guess".

(** The [SimpleNamespace] handed to the agent.  Its list fields are the
    game's own lists; the agent only reads them, so a call sees the value
    they have when it is made. *)
Record Observation : Type := mkObs {
  turnType : string;
  questions : list string;
  answers : list string;
  question_guesses : list string;
  answer_guesses_list : list string
}.

(** One call to a collaborator, with its argument and what it returned. *)
Inductive Event : Type :=
| EvNewValidator
| EvAgent (obs : Observation) (ret : option string)
| EvValidateQuestion (question : string) (raw : PyVal)
| EvValidateGuess (guess : string) (raw : PyVal).

(** The opaque collaborators over a world [W] (the hidden state of the
    language model and of the validator, its target included).
    [guesser_agent] returns text or [None]; [ValidatorModel] is the
    constructor; [target_word] is what [_maybe_get_target_word] reads off
    the validator ([VNone] when it exposes nothing).  The class describes
    collaborators whose calls return; the lookups behind [target_word],
    which may raise, are spelled out in [Target], and the game with them in
    [Full]. *)
Class Collaborators (W : Type) : Type := {
  guesser_agent : Observation -> W -> option string * W;
  ValidatorModel : W -> W;
  validate_question : string -> W -> PyVal * W;
  validate_guess : string -> W -> PyVal * W;
  target_word : W -> PyVal
}.

(** Computations that thread the world and emit the calls they make. *)
Definition Run (W A : Type) : Type := W -> A * W * list Event.

#[global] Instance run_ret {W} : MRet (Run W) := fun A a w => (a, w, []).

#[global] Instance run_bind {W} : MBind (Run W) := fun A B f m w =>
  let '(a, w1, e1) := m w in
  let '(b, w2, e2) := f a w1 in
  (b, w2, e1 ++ e2).

(** ** One game *)

Record GameState : Type := mkGame {
  g_questions : list string;
  g_answers : list string;
  g_guesses : list string;
  past_guesses_norm : gset string
}.

Definition fresh_game : GameState := mkGame [] [] [] ∅.

(** The tuple [run_single_game] returns. *)
Record GameRecord : Type := mkRecord {
  won : bool;
  final_guess : string;
  rounds_used : Z;
  maybe_target : PyVal
}.

Definition fallback_question : string := "Is it related to a well-known person?".
Definition fallback_guess : string := "unknown".
Definition retry_bound : nat := 5.

Definition _norm (s : string) : string := PyStr.strip (PyStr.casefold s).

(** [(guesser_agent(obs) or "").strip()] applied to what the agent returned. *)
Definition agent_text (r : option string) : string :=
  PyStr.strip (match r with Some s => PyStr.or_else s "" | None => "" end).

Definition question_text (r : option string) : string :=
  let question := agent_text r in
  if negb (PyStr.truthy question) then fallback_question else question.

Definition guess_text (r : option string) : string :=
  PyStr.or_else (agent_text r) fallback_guess.

Section Game.
Context {W : Type} `{Collaborators W}.

Definition call_agent (obs : Observation) : Run W (option string) :=
  fun w => let '(r, w') := guesser_agent obs w in (r, w', [EvAgent obs r]).

Definition call_ValidatorModel : Run W unit :=
  fun w => (tt, ValidatorModel w, [EvNewValidator]).

Definition call_validate_question (q : string) : Run W PyVal :=
  fun w => let '(raw, w') := validate_question q w in
           (raw, w', [EvValidateQuestion q raw]).

Definition call_validate_guess (g : string) : Run W PyVal :=
  fun w => let '(raw, w') := validate_guess g w in
           (raw, w', [EvValidateGuess g raw]).

Definition _maybe_get_target_word : Run W PyVal :=
  fun w => (target_word w, w, []).

(** [while _norm(guess) in past_guesses_norm and tries < 5: ...], by
    recursion on [5 - tries], the number of re-invocations still allowed. *)
Fixpoint dedup_while (obs : Observation) (past : gset string)
    (left : nat) (guess : string) : Run W string :=
  match left with
  | O => mret guess
  | S left' =>
      if bool_decide (_norm guess ∈ past) then
        r ← call_agent obs;
        dedup_while obs past left' (guess_text r)
      else mret guess
  end.

(** The GUESS turn up to the accepted guess. *)
Definition guess_turn (obs : Observation) (past : gset string) : Run W string :=
  r ← call_agent obs;
  let guess := agent_text r in
  let guess := if negb (PyStr.truthy guess) then fallback_guess else guess in
  dedup_while obs past retry_bound guess.

(** The body of the [for qnum] loop; the result says whether the guess was
    correct (the [return] inside the loop). *)
Definition play_round (st : GameState) : Run W (GameState * string * bool) :=
  let obs := mkObs ASK (g_questions st) (g_answers st) (g_guesses st)
                   (g_answers st) in
  r ← call_agent obs;
  let question := question_text r in
  let questions := g_questions st ++ [question] in
  raw_ans ← call_validate_question question;
  let ans := _normalize_answer raw_ans in
  let answers := g_answers st ++ [ans] in
  let obs := mkObs GUESS questions answers (g_guesses st) answers in
  guess ← guess_turn obs (past_guesses_norm st);
  let past := {[ _norm guess ]} ∪ past_guesses_norm st in
  let guesses := g_guesses st ++ [guess] in
  raw_guess_res ← call_validate_guess guess;
  let correct := _parse_guess_result raw_guess_res in
  mret (mkGame questions answers guesses past, guess, correct).

(** [for qnum in range(qnum, qnum + n)]: [Some (guess, qnum)] when a round
    returned from inside the loop, [None] when the range ran out. *)
Fixpoint for_qnum (n : nat) (qnum : Z) (st : GameState)
    : Run W (option (string * Z) * GameState) :=
  match n with
  | O => mret (None, st)
  | S n' =>
      '(st', guess, correct) ← play_round st;
      if correct : bool then mret (Some (guess, qnum), st')
      else for_qnum n' (qnum + 1) st'
  end.

(** [guesses[-1] if guesses else ""] *)
Definition last_guess (guesses : list string) : string :=
  List.last guesses "".

(** [range(1, max_rounds + 1)] has [max_rounds] elements, none when
    [max_rounds <= 0]. *)
Definition run_single_game (max_rounds : Z) : Run W GameRecord :=
  _ ← call_ValidatorModel;
  target ← _maybe_get_target_word;
  '(ret, st) ← for_qnum (Z.to_nat max_rounds) 1 fresh_game;
  match ret with
  | Some (guess, qnum) => mret (mkRecord true guess qnum target)
  | None => mret (mkRecord false (last_guess (g_guesses st)) max_rounds target)
  end.

End Game.

(** ** The evaluation driver *)

(** What [main] prints: one line per game, the two rules of sixty [=]
    (the first preceded by an empty line), and the summary.  [gl_target] is
    [Some t] when the target is printed ([if target]). *)
Inductive Printed : Type :=
| GameLine (i : Z) (status : string) (rounds : Z) (guess : string)
           (gl_target : option PyVal)
| Rule
| Summary (wins total : Z) (rate : string).

Inductive Outcome : Type :=
| Returned
| Raised (exc : string).

Definition ZeroDivisionError : string := "ZeroDivisionError".

(** [main]'s effects in order: collaborator calls and printed lines. *)
Inductive Effect : Type :=
| Call (e : Event)
| Print (p : Printed).

Module PyFloat.

(** An int as an exact (unrounded) binary number. *)
Definition of_int (z : Z) : spec_float :=
  match z with
  | Z0 => S754_zero false
  | Zpos p => S754_finite false p 0
  | Zneg p => S754_finite true p 0
  end.

(** [a / b] on ints with [b <> 0]: the exact quotient rounded once to the
    nearest double, ties to even.  ([main] raises before it divides by
    zero, and a quotient of at most 1 cannot overflow.) *)
Definition truediv (a b : Z) : float :=
  SF2Prim (SFdiv prec emax (of_int a) (of_int b)).

Definition round_half_even (num den : Z) : Z :=
  let q := num / den in
  let r := num mod den in
  if 2 * r <? den then q
  else if den <? 2 * r then q + 1
  else if Z.even q then q else q + 1.

(** The number of tenths in [x] correctly rounded to one decimal (ties to
    even on the exact binary value), with the sign apart. *)
Definition tenths (x : float) : option (bool * Z) :=
  match Prim2SF x with
  | S754_zero s => Some (s, 0)
  | S754_finite s m e =>
      let n := Z.pos m * 10 in
      Some (s, if 0 <=? e then n * 2 ^ e else round_half_even n (2 ^ (- e)))
  | _ => None
  end.

Definition digits (z : Z) : string := NilEmpty.string_of_uint (N.to_uint (Z.to_N z)).

(** The text of [t] tenths of a percent: ["-"] for a set sign bit, the
    integer part, a point, one digit and the percent sign. *)
Definition render (s : bool) (t : Z) : string :=
  String.append (if s then "-" else "")
    (String.append (digits (t / 10))
       (String.append "." (String.append (digits (t mod 10)) "%"))).

(** [format(x, ".1%")]: [x * 100] in double precision, then one decimal. *)
Definition format_pct1 (x : float) : string :=
  match tenths (PrimFloat.mul x 100%float) with
  | Some (s, t) => render s t
  | None => "nan%"
  end.

End PyFloat.

Section Driver.
Context {W : Type} `{Collaborators W}.

(** Computations of the driver: like [Run], emitting [Effect]s. *)
Definition calls {A} (m : Run W A) : W -> A * W * list Effect :=
  fun w => let '(a, w', evs) := m w in (a, w', map Call evs).

Definition game_line (i : Z) (r : GameRecord) : Printed :=
  GameLine i (if won r then "WIN" else "LOSS") (rounds_used r) (final_guess r)
           (if py_bool (maybe_target r) then Some (maybe_target r) else None).

(** [for i in range(i, i + n)] of [main], with its three accumulators. *)
Fixpoint for_i (n : nat) (i : Z) (max_rounds : Z) (wins : Z)
    (results : list GameRecord) (w : W)
    : (Z * list GameRecord) * W * list Effect :=
  match n with
  | O => ((wins, results), w, [])
  | S n' =>
      let '(r, w1, e1) := calls (run_single_game max_rounds) w in
      let wins := wins + Z.b2z (won r) in
      let '(acc, w2, e2) := for_i n' (i + 1) max_rounds wins (results ++ [r]) w1 in
      (acc, w2, e1 ++ [Print (game_line i r)] ++ e2)
  end.

(** [main] after argument parsing: [num] is [args.num], [max_rounds] is
    [args.max_rounds].  The summary's f-string is evaluated before it is
    printed, so a zero [total] raises with only the first rule printed. *)
Definition main (num max_rounds : Z) (w : W) : Outcome * W * list Effect :=
  let total := num in
  let '((wins, results), w', e) := for_i (Z.to_nat total) 1 max_rounds 0 [] w in
  if total =? 0 then (Raised ZeroDivisionError, w', e ++ [Print Rule])
  else
    let rate := PyFloat.format_pct1 (PyFloat.truediv wins total) in
    (Returned, w', e ++ [Print Rule; Print (Summary wins total rate); Print Rule]).

End Driver.

(** ** Concrete collaborators, to run the model *)

Module Stub.

(** [sub in s] *)
Fixpoint contains (sub s : string) : bool :=
  match s with
  | EmptyString => String.eqb sub EmptyString
  | String _ s' => if String.prefix sub s then true else contains sub s'
  end.

(** The self-test's deterministic pair: the validator's target is
    ["lion"], the agent asks ["Is it an animal?"] and guesses ["lion"]. *)
Definition selftest : Collaborators unit := {|
  guesser_agent obs w :=
    (Some (if String.eqb (PyStr.lower (turnType obs)) "ask"
           then "Is it an animal?" else "lion"), w);
  ValidatorModel w := w;
  validate_question q w :=
    (VStr (if contains "animal" (PyStr.lower q) then "yes" else "maybe"), w);
  validate_guess g w :=
    (VBool (String.eqb (PyStr.lower (PyStr.strip g)) "lion"), w);
  target_word w := VStr "lion"
|}.

(** An agent that reads its replies off a script (and returns [None] once
    it is used up), against an oracle given by two functions. *)
Definition scripted (vq vg : string -> PyVal)
    : Collaborators (list (option string)) := {|
  guesser_agent obs w := (hd None w, tl w);
  ValidatorModel w := w;
  validate_question q w := (vq q, w);
  validate_guess g w := (vg g, w);
  target_word w := VNone
|}.

(** An oracle that answers every guess with the mapping {"correct": "no"}. *)
Definition oracle_says_no : Collaborators (list (option string)) :=
  scripted (fun _ => VStr "yes") (fun _ => VDict [("correct", VStr "no")]).

(** The oracle of the scenarios: every question is answered "yes" and
    "lion" is the only correct guess. *)
Definition lion_oracle : Collaborators (list (option string)) :=
  scripted (fun _ => VStr "yes")
           (fun g => VBool (String.eqb (PyStr.lower (PyStr.strip g)) "lion")).

(** An agent that answers every call with whitespace, against an oracle
    that says "maybe" to every question and no to every guess. *)
Definition blank_agent : Collaborators unit := {|
  guesser_agent obs w := (Some "  ", w);
  ValidatorModel w := w;
  validate_question q w := (VStr "maybe", w);
  validate_guess g w := (VBool false, w);
  target_word w := VNone
|}.

(** An agent that guesses "zebra" and then " Lion ": a win in the second
    of at most three rounds. *)
Definition lion_script : list (option string) :=
  [Some "Is it big?"; Some "zebra"; Some "Is it a cat?"; Some " Lion "].


(** Three rounds of an agent that only ever guesses "zebra": one guess in
    the first round, six in each of the next two. *)
Definition zebra_script : list (option string) :=
  [Some "Is it big?"; Some "zebra"] ++
  (Some "Is it striped?" :: replicate 6 (Some "zebra")) ++
  (Some "Is it fast?" :: replicate 6 (Some "zebra")).

End Stub.

(** ** The calls of a game, round by round *)

(** What the collaborators returned during one round: the agent's reply on
    the ASK turn, the oracle's raw answer, the agent's replies on the GUESS
    turn (the first call and every re-invocation, in order) and the
    oracle's raw verdict on the accepted guess. *)
Record Round : Type := mkRound {
  r_ask : option string;
  r_raw_ans : PyVal;
  r_tries : list (option string);
  r_raw_res : PyVal
}.

Definition r_question (r : Round) : string := question_text (r_ask r).
Definition r_answer (r : Round) : string := _normalize_answer (r_raw_ans r).
Definition r_guess (r : Round) : string := guess_text (List.last (r_tries r) None).
Definition r_correct (r : Round) : bool := _parse_guess_result (r_raw_res r).

Definition ask_obs (st : GameState) : Observation :=
  mkObs ASK (g_questions st) (g_answers st) (g_guesses st) (g_answers st).

Definition guess_obs (st : GameState) (r : Round) : Observation :=
  mkObs GUESS (g_questions st ++ [r_question r]) (g_answers st ++ [r_answer r])
        (g_guesses st) (g_answers st ++ [r_answer r]).

(** The calls of a round played from state [st], in order. *)
Definition round_events (st : GameState) (r : Round) : list Event :=
  [EvAgent (ask_obs st) (r_ask r); EvValidateQuestion (r_question r) (r_raw_ans r)]
  ++ map (EvAgent (guess_obs st r)) (r_tries r)
  ++ [EvValidateGuess (r_guess r) (r_raw_res r)].

(** The game state after a round played from [st]. *)
Definition round_next (st : GameState) (r : Round) : GameState :=
  mkGame (g_questions st ++ [r_question r]) (g_answers st ++ [r_answer r])
         (g_guesses st ++ [r_guess r])
         ({[ _norm (r_guess r) ]} ∪ past_guesses_norm st).

Definition state_after (st : GameState) (rs : list Round) : GameState :=
  foldl round_next st rs.

(** The calls of consecutive rounds played from [st]. *)
Fixpoint game_events (st : GameState) (rs : list Round) : list Event :=
  match rs with
  | [] => []
  | r :: rs' => round_events st r ++ game_events (round_next st r) rs'
  end.


(** What the GUESS turn guarantees about the agent's replies [tries], given
    the normal forms [past] of the guesses accepted so far: at most
    [1 + retry_bound] calls, every reply before the last was a duplicate,
    and the last one is a duplicate only when the bound was used up. *)
Definition dedup_ok (past : gset string) (tries : list (option string)) : Prop :=
  (0 < length tries <= S retry_bound)%nat /\
  (forall i t, tries !! i = Some t -> (S i < length tries)%nat ->
               _norm (guess_text t) ∈ past) /\
  (_norm (guess_text (List.last tries None)) ∈ past ->
   length tries = S retry_bound).

Definition incorrect (r : Round) : Prop := r_correct r = false.

(** [dedup_ok] in every round of a game played from [st]. *)
Fixpoint rounds_dedup_ok (st : GameState) (rs : list Round) : Prop :=
  match rs with
  | [] => True
  | r :: rs' =>
      dedup_ok (past_guesses_norm st) (r_tries r) /\
      rounds_dedup_ok (round_next st r) rs'
  end.

(** Projections of a list of calls. *)
Definition guess_results (evs : list Event) : list bool :=
  omap (fun e => match e with
                 | EvValidateGuess _ raw => Some (_parse_guess_result raw)
                 | _ => None
                 end) evs.

Definition validated_guesses (evs : list Event) : list string :=
  omap (fun e => match e with EvValidateGuess g _ => Some g | _ => None end) evs.

Definition validated_questions (evs : list Event) : list string :=
  omap (fun e => match e with EvValidateQuestion q _ => Some q | _ => None end) evs.

Definition agent_calls (evs : list Event) : list (Observation * option string) :=
  omap (fun e => match e with EvAgent obs r => Some (obs, r) | _ => None end) evs.

Definition result {W A} (x : A * W * list Event) : A := x.1.1.
Definition events {W A} (x : A * W * list Event) : list Event := x.2.

(** ** Games played one after another *)

Section Sequence.
Context {W : Type} `{Collaborators W}.

(** [n] games in sequence, each starting in the world the previous one
    left: their records with their calls, and the final world. *)
Fixpoint play_games (n : nat) (max_rounds : Z) (w : W)
    : list (GameRecord * list Event) * W :=
  match n with
  | O => ([], w)
  | S n' =>
      let '(r, w1, evs) := run_single_game max_rounds w in
      let '(games, w2) := play_games n' max_rounds w1 in
      ((r, evs) :: games, w2)
  end.

End Sequence.

(** The effects of reporting games numbered from [i]: the calls of each
    game, then its line. *)
Fixpoint games_output (i : Z) (games : list (GameRecord * list Event))
    : list Effect :=
  match games with
  | [] => []
  | (r, evs) :: games' =>
      (Call <$> evs) ++ [Print (game_line i r)] ++ games_output (i + 1) games'
  end.

(** The lines of games numbered from [i]. *)
Fixpoint game_lines (i : Z) (records : list GameRecord) : list Printed :=
  match records with
  | [] => []
  | r :: records' => game_line i r :: game_lines (i + 1) records'
  end.

Definition count_won (records : list GameRecord) : Z :=
  Z.of_nat (length (List.filter won records)).

Definition calls_made (effs : list Effect) : list Event :=
  omap (fun e => match e with Call c => Some c | _ => None end) effs.

Definition printed (effs : list Effect) : list Printed :=
  omap (fun e => match e with Print p => Some p | _ => None end) effs.

Definition validators_built (evs : list Event) : nat :=
  length (List.filter (fun e => match e with EvNewValidator => true | _ => false end) evs).

(** A run of [main] that rejects its configuration: it raises something
    other than a division error, having called no collaborator and
    printed nothing. *)
Definition rejects_configuration {W} (x : Outcome * W * list Effect) : Prop :=
  exists exc, x.1.1 = Raised exc /\ exc <> ZeroDivisionError /\ x.2 = [].

(** The tenths printed for [wins] out of [total] are a nearest tenth of
    the exact percentage [100 * wins / total]. *)
Definition rate_ok (wins total : Z) : bool :=
  match PyFloat.tenths (PrimFloat.mul (PyFloat.truediv wins total)
                                      100%float) with
  | Some (false, t) =>
      (0 <=? t) && (2 * Z.abs (t * total - 1000 * wins) <=? total)
  | _ => false
  end.

Definition upto (n : nat) : list Z := Z.of_nat <$> seq 0 (S n).

Definition rates_ok_upto (bound : nat) : bool :=
  forallb (fun total =>
             (total =? 0) ||
             forallb (fun wins => rate_ok wins total) (upto (Z.to_nat total)))
          (upto bound).

(** ** Reference definitions, following the specification's wording *)

Module Ref.

Inductive CanonicalAnswer : Type := yes | no | maybe.

Definition text (c : CanonicalAnswer) : string :=
  match c with yes => "yes" | no => "no" | maybe => "maybe" end.

(** "case-fold and trim" *)
Definition fold_trim (s : string) : string := PyStr.strip (PyStr.casefold s).

Definition yes_words : list string := ["yes"; "y"; "true"; "1"].
Definition no_words : list string := ["no"; "n"; "false"; "0"].
Definition maybe_words : list string :=
  ["maybe"; "unsure"; "unknown"; "not sure"; "idk"].

(** The synonym sets; any other text is [maybe]. *)
Definition classify (t : string) : CanonicalAnswer :=
  if bool_decide (t ∈ yes_words) then yes
  else if bool_decide (t ∈ no_words) then no
  else if bool_decide (t ∈ maybe_words) then maybe
  else maybe.

(** The priority lists of keys, for an answer and for a guess result. *)
Definition answer_priority : list string :=
  ["answer"; "response"; "label"; "result"; "status"].

(** "the first present key among a fixed priority list" *)
Fixpoint first_present (keys : list string) (d : list (string * PyVal))
    : option PyVal :=
  match keys with
  | [] => None
  | key :: keys' =>
      match dict_get key d with
      | Some v => Some v
      | None => first_present keys' d
      end
  end.

(** normalize_answer, clause by clause. *)
Inductive normalize_answer : PyVal -> CanonicalAnswer -> Prop :=
| na_true : normalize_answer (VBool true) yes
| na_false : normalize_answer (VBool false) no
| na_text s : normalize_answer (VStr s) (classify (fold_trim s))
| na_key d v c :
    first_present answer_priority d = Some v ->
    normalize_answer v c ->
    normalize_answer (VDict d) c
| na_no_key d :
    first_present answer_priority d = None ->
    normalize_answer (VDict d) maybe
| na_none : normalize_answer VNone maybe
| na_int n : normalize_answer (VInt n) maybe
| na_list l : normalize_answer (VList l) maybe.






End Ref.

(** ** Replaying recorded calls *)

Section Replay.
Context {W : Type} `{Collaborators W}.

(** The calls [evs] are what the collaborators do from world [w], one
    after the other: each recorded call, made in the world the one before
    it left, returns what is recorded, and the last leaves [w']. *)
Fixpoint replays (w : W) (evs : list Event) (w' : W) : Prop :=
  match evs with
  | [] => w' = w
  | EvNewValidator :: evs' => replays (ValidatorModel w) evs' w'
  | EvAgent obs ret :: evs' =>
      (guesser_agent obs w).1 = ret /\ replays (guesser_agent obs w).2 evs' w'
  | EvValidateQuestion q raw :: evs' =>
      (validate_question q w).1 = raw /\
      replays (validate_question q w).2 evs' w'
  | EvValidateGuess g raw :: evs' =>
      (validate_guess g w).1 = raw /\ replays (validate_guess g w).2 evs' w'
  end.

(** A computation records exactly the calls it makes: from every world,
    its record replays to the world it leaves. *)
Definition replayed {A : Type} (m : Run W A) : Prop :=
  forall w, replays w (m w).2 (m w).1.2.

End Replay.

(** ** Probing the validator for its target label *)

(** [_maybe_get_target_word] in detail.  Above, its result is the abstract
    [target_word]; here the attribute lookups it performs are themselves
    calls into an opaque, stateful object, each of which may find a value
    or raise. *)
Module Target.

(** Exceptions, as far as [hasattr] and [except Exception] tell them
    apart: [AttributeError], any other exception under [Exception], and a
    [BaseException] outside [Exception] (a [KeyboardInterrupt], say). *)
Inductive PyExn : Type :=
| AttributeError
| OtherException (name : string)
| NonException (name : string).

Definition is_Exception (e : PyExn) : bool :=
  match e with NonException _ => false | _ => true end.

Definition is_AttributeError (e : PyExn) : bool :=
  match e with AttributeError => true | _ => false end.

(** Calling something that is not callable. *)
Definition TypeError : PyExn := OtherException "TypeError".

(** What an attribute holds: a value, or something that can be called. *)
Inductive Obj : Type :=
| Data (v : PyVal)
| Callable (f : nat).

(** [None] *)
Definition PyNone : Obj := Data VNone.

(** One access to the validator, with what it gave. *)
Inductive Access : Type :=
| Getattr (name : string) (r : Obj + PyExn)
| CallObj (f : nat) (r : Obj + PyExn).

Definition accessed_name (a : Access) : option string :=
  match a with Getattr name _ => Some name | CallObj _ _ => None end.

(** The names looked up, in order. *)
Definition names_accessed (evs : list Access) : list string :=
  omap accessed_name evs.

(** The validator as an object: [getattr(vm, name)] and the call [f()] of
    a callable it handed out. *)
Class Validator (W : Type) : Type := {
  getattr : string -> W -> (Obj + PyExn) * W;
  call : nat -> W -> (Obj + PyExn) * W
}.

(** Computations that may raise, over the world, with their accesses. *)
Definition Probe (W A : Type) : Type := W -> (A + PyExn) * W * list Access.

Definition target_attrs : list string :=
  ["target"; "word"; "answer"; "label"; "solution"; "keyword"; "gold";
   "ground_truth"].

Definition target_meths : list string := ["get_target"; "get_word"; "get_answer"].

Section Probing.
Context {W : Type} `{Validator W}.

(** [hasattr(vm, name)]: [getattr] with [AttributeError] caught, and only
    it. *)
Definition hasattr (name : string) : Probe W bool := fun w =>
  let '(r, w') := getattr name w in
  (match r with
   | inl _ => inl true
   | inr e => if is_AttributeError e then inl false else inr e
   end, w', [Getattr name r]).

Definition do_getattr (name : string) : Probe W Obj := fun w =>
  let '(r, w') := getattr name w in (r, w', [Getattr name r]).

(** [getattr(vm, name)()] *)
Definition do_getattr_call (name : string) : Probe W Obj := fun w =>
  let '(r, w1) := getattr name w in
  match r with
  | inl (Callable f) =>
      let '(r2, w2) := call f w1 in (r2, w2, [Getattr name r; CallObj f r2])
  | inl (Data _) => (inr TypeError, w1, [Getattr name r])
  | inr e => (inr e, w1, [Getattr name r])
  end.

(** [try: return m] followed by [except Exception: pass] and the rest. *)
Definition try_return (m rest : Probe W Obj) : Probe W Obj := fun w =>
  let '(r, w1, e1) := m w in
  match r with
  | inl v => (inl v, w1, e1)
  | inr e =>
      if is_Exception e then
        let '(r2, w2, e2) := rest w1 in (r2, w2, e1 ++ e2)
      else (inr e, w1, e1)
  end.

(** [if hasattr(vm, name): try: return m / except Exception: pass], then
    the rest. *)
Definition if_hasattr (name : string) (m rest : Probe W Obj) : Probe W Obj :=
  fun w =>
    let '(b, w1, e1) := hasattr name w in
    match b with
    | inl true =>
        let '(r2, w2, e2) := try_return m rest w1 in (r2, w2, e1 ++ e2)
    | inl false => let '(r2, w2, e2) := rest w1 in (r2, w2, e1 ++ e2)
    | inr e => (inr e, w1, e1)
    end.

(** The first loop, over attribute names. *)
Fixpoint for_attr (attrs : list string) (rest : Probe W Obj) : Probe W Obj :=
  match attrs with
  | [] => rest
  | attr :: attrs' => if_hasattr attr (do_getattr attr) (for_attr attrs' rest)
  end.

(** The second loop, over method names. *)
Fixpoint for_meth (meths : list string) (rest : Probe W Obj) : Probe W Obj :=
  match meths with
  | [] => rest
  | meth :: meths' =>
      if_hasattr meth (do_getattr_call meth) (for_meth meths' rest)
  end.

Definition _maybe_get_target_word : Probe W Obj :=
  for_attr target_attrs (for_meth target_meths (fun w => (inl PyNone, w, []))).

End Probing.

(** A stateless object: a fixed outcome for the lookup of each name
    ([inr AttributeError] when it has no such attribute) and for the call
    of each callable. *)
Definition plain (attr_of : string -> Obj + PyExn) (call_of : nat -> Obj + PyExn)
    : Validator unit := {|
  getattr name w := (attr_of name, w);
  call f w := (call_of f, w)
|}.

Definition absent (r : Obj + PyExn) : bool :=
  match r with inr e => is_AttributeError e | inl _ => false end.

(** The lookups that find nothing, one per name. *)
Definition misses (names : list string) : list Access :=
  (fun name => Getattr name (inr AttributeError)) <$> names.

(** Going through the method names of a stateless object that has none of
    the attributes: the first method that is there, can be called and
    returns decides; one that is not callable or raises under [Exception]
    is passed over. *)
Fixpoint first_yield (attr_of : string -> Obj + PyExn)
    (call_of : nat -> Obj + PyExn) (meths : list string) : Obj + PyExn :=
  match meths with
  | [] => inl PyNone
  | meth :: meths' =>
      match attr_of meth with
      | inl (Callable f) =>
          match call_of f with
          | inl o => inl o
          | inr e =>
              if is_Exception e then first_yield attr_of call_of meths'
              else inr e
          end
      | inl (Data _) => first_yield attr_of call_of meths'
      | inr e =>
          if is_AttributeError e then first_yield attr_of call_of meths'
          else inr e
      end
  end.

(** What an access gave. *)
Definition access_result (a : Access) : Obj + PyExn :=
  match a with Getattr _ r => r | CallObj _ r => r end.

Section Escapes.
Context {W : Type} `{Validator W}.

(** How a computation over the names [names] may raise: never with an
    [AttributeError]; the exception is what its last access gave; and an
    exception under [Exception] comes from the first lookup of a name. *)
Definition raises_ok (names : list string) (m : Probe W Obj) : Prop :=
  forall w,
    names_accessed (m w).2 ⊆ names /\
    forall e, (m w).1.1 = inr e ->
      is_AttributeError e = false /\
      exists evs0 a,
        (m w).2 = evs0 ++ [a] /\ access_result a = inr e /\
        (is_Exception e = true ->
         exists name, a = Getattr name (inr e) /\ name ∉ names_accessed evs0).

(** The guarded body of a loop step: it looks up [name] only, and what it
    lets through the handler is what its last access gave. *)
Definition body_ok (name : string) (m : Probe W Obj) : Prop :=
  forall w,
    names_accessed (m w).2 ⊆ [name] /\
    (length (m w).2 <= 2)%nat /\
    forall e, (m w).1.1 = inr e -> is_Exception e = false ->
      exists evs0 a, (m w).2 = evs0 ++ [a] /\ access_result a = inr e.

End Escapes.

(** A validator whose [target] is a property that raises. *)
Definition broken_target : Validator unit :=
  plain (fun name => if String.eqb name "target"
                     then inr (OtherException "ValueError")
                     else inr AttributeError)
        (fun _ => inr TypeError).

(** The stub validator of the self-test as an object: its only attribute
    is [target], set to "lion". *)
Definition selftest_object : Validator unit :=
  plain (fun name => if String.eqb name "target"
                     then inl (Data (VStr "lion"))
                     else inr AttributeError)
        (fun _ => inr TypeError).

End Target.

(** ** The game with the probe of the target spelled out *)

(** [run_single_game] over a validator whose attribute lookups are the
    calls of [Target]: the probe runs right after the construction, outside
    any handler, so what it raises ends the game before the first round. *)
Module Full.

(** What a game does to its collaborators: a call, or an access of the
    probe. *)
Inductive Step : Type :=
| Played (e : Event)
| Probed (a : Target.Access).

Definition played (steps : list Step) : list Event :=
  omap (fun s => match s with Played e => Some e | Probed _ => None end) steps.

Definition probed (steps : list Step) : list Target.Access :=
  omap (fun s => match s with Probed a => Some a | Played _ => None end) steps.

Section Full.
Context {W : Type} `{Collaborators W} `{Target.Validator W}.

(** The returned tuple [(won, final_guess, rounds_used, target)], or the
    exception the game ends with. *)
Definition run_single_game (max_rounds : Z) (w : W)
    : (bool * string * Z * Target.Obj + Target.PyExn) * W * list Step :=
  let validator := ValidatorModel w in
  let '(target, w1, accesses) := Target._maybe_get_target_word validator in
  match target with
  | inr exn => (inr exn, w1, Played EvNewValidator :: (Probed <$> accesses))
  | inl target =>
      let '(ret, st, w2, evs) :=
        for_qnum (Z.to_nat max_rounds) 1 fresh_game w1 in
      (inl match ret with
           | Some (guess, qnum) => (true, guess, qnum, target)
           | None => (false, last_guess (g_guesses st), max_rounds, target)
           end,
       w2, Played EvNewValidator :: (Probed <$> accesses) ++ (Played <$> evs))
  end.

End Full.

End Full.

(** ** Further notions for the properties below *)





(** One of the three canonical answers. *)
Definition canonical (a : string) : Prop := a ∈ ["yes"; "no"; "maybe"].

(** [s] consists of whitespace only. *)
Fixpoint all_space (s : string) : bool :=
  match s with
  | EmptyString => true
  | String c s' => PyStr.is_space c && all_space s'
  end.


(** The history in [o1] is an initial part of the history in [o2]. *)
Definition history_grows (o1 o2 : Observation) : Prop :=
  questions o1 `prefix_of` questions o2 /\
  answers o1 `prefix_of` answers o2 /\
  question_guesses o1 `prefix_of` question_guesses o2.

(** The shape of the histories in an Observation. *)
Definition well_formed (obs : Observation) : Prop :=
  answer_guesses_list obs = answers obs /\
  length (answers obs) = length (questions obs) /\
  Forall canonical (answers obs) /\
  ((turnType obs = ASK /\
    length (question_guesses obs) = length (questions obs)) \/
   (turnType obs = GUESS /\
    S (length (question_guesses obs)) = length (questions obs))).

(** The invariant of the game state between rounds. *)
Definition state_ok (st : GameState) : Prop :=
  length (g_answers st) = length (g_questions st) /\
  length (g_guesses st) = length (g_questions st) /\
  Forall canonical (g_answers st).

(** * Properties *)

(** ** Strings *)

Lemma is_space_lower_char c : PyStr.is_space (PyStr.lower_char c) = PyStr.is_space c.
Proof. by destruct c as [[] [] [] [] [] [] [] []]. Qed.

Lemma lstrip_lower s : PyStr.lstrip (PyStr.lower s) = PyStr.lower (PyStr.lstrip s).
Proof.
  induction s as [|c s IH]; simpl; [done|].
  rewrite is_space_lower_char. by destruct (PyStr.is_space c).
Qed.

Lemma rstrip_lower s : PyStr.rstrip (PyStr.lower s) = PyStr.lower (PyStr.rstrip s).
Proof.
  induction s as [|c s IH]; simpl; [done|].
  rewrite IH, is_space_lower_char.
  destruct (PyStr.rstrip s); simpl; [|done].
  by destruct (PyStr.is_space c).
Qed.

(** Trimming and case folding commute on ASCII text. *)
Lemma strip_lower s : PyStr.strip (PyStr.lower s) = PyStr.lower (PyStr.strip s).
Proof. unfold PyStr.strip. by rewrite lstrip_lower, rstrip_lower. Qed.

Lemma fold_trim_eq s : Ref.fold_trim s = PyStr.lower (PyStr.strip s).
Proof. apply strip_lower. Qed.

Lemma in_tuple_elem_of s t : PyStr.in_tuple s t = bool_decide (s ∈ t).
Proof.
  induction t as [|x t IH]; simpl.
  - done.
  - destruct (String.eqb_spec s x) as [->|Hne].
    + symmetry. apply bool_decide_eq_true. by left.
    + rewrite IH. apply bool_decide_ext. rewrite elem_of_cons. tauto.
Qed.

(** ** Dictionaries *)

Lemma for_key_in_first_present {A} (f : PyVal -> A) dflt keys d :
  for_key_in f dflt keys d =
  match Ref.first_present keys d with Some v => f v | None => dflt end.
Proof.
  induction keys as [|key keys IH]; simpl; [done|].
  transitivity (match dict_get key d with
                | Some v => f v
                | None => for_key_in f dflt keys d
                end).
  - clear IH. generalize (for_key_in f dflt keys d). intros a.
    induction d as [|[k v] e IHe]; simpl; [done|].
    by destruct (String.eqb key k).
  - by destruct (dict_get key d).
Qed.

Lemma dict_get_elem key d v : dict_get key d = Some v -> (key, v) ∈ d.
Proof.
  induction d as [|[k u] e IH]; simpl; [done|].
  destruct (String.eqb_spec key k) as [->|_].
  - intros [= ->]. by left.
  - intros. right. auto.
Qed.

Lemma first_present_elem keys d v :
  Ref.first_present keys d = Some v -> exists key, key ∈ keys /\ (key, v) ∈ d.
Proof.
  induction keys as [|key keys IH]; simpl; [done|].
  destruct (dict_get key d) as [u|] eqn:E.
  - intros [= ->]. exists key. split; [by left | by apply dict_get_elem].
  - intros (k & ? & ?)%IH. exists k. split; [by right | done].
Qed.

(** Induction over raw values that reaches the values stored in a dict. *)
Lemma PyVal_dict_ind (P : PyVal -> Prop) :
  P VNone -> (forall b, P (VBool b)) -> (forall n, P (VInt n)) ->
  (forall s, P (VStr s)) -> (forall l, P (VList l)) ->
  (forall d, (forall k v, (k, v) ∈ d -> P v) -> P (VDict d)) ->
  forall v, P v.
Proof.
  intros HN HB HI HS HL HD.
  fix IH 1. intros [|b|n|s|l|d];
    [exact HN | exact (HB b) | exact (HI n) | exact (HS s) | exact (HL l) |].
  apply HD.
  assert (Forall (fun kv => P kv.2) d) as HF.
  { induction d as [|[k u] e IHe]; constructor; [exact (IH u) | exact IHe]. }
  intros k v Hin. rewrite Forall_forall in HF. exact (HF (k, v) Hin).
Qed.

(** ** The response normalizer *)

(** The keys the code goes through are the priority lists, in order. *)
Lemma answer_keys_priority : answer_keys = Ref.answer_priority.
Proof. reflexivity. Qed.


Lemma normalize_answer_dict d :
  _normalize_answer (VDict d) =
  match Ref.first_present answer_keys d with
  | Some v => _normalize_answer v
  | None => "maybe"
  end.
Proof. exact (for_key_in_first_present _normalize_answer "maybe" answer_keys d). Qed.

Lemma normalize_answer_text s :
  _normalize_answer (VStr s) = Ref.text (Ref.classify (Ref.fold_trim s)).
Proof.
  unfold Ref.classify. rewrite fold_trim_eq. cbn [_normalize_answer].
  rewrite !in_tuple_elem_of.
  unfold Ref.yes_words, Ref.no_words, Ref.maybe_words.
  by repeat case_bool_decide.
Qed.


Lemma normalize_answer_sound raw c :
  Ref.normalize_answer raw c -> _normalize_answer raw = Ref.text c.
Proof.
  induction 1 as [| |s|d v c Hk _ IH|d Hk| | |]; try reflexivity.
  - apply normalize_answer_text.
  - by rewrite normalize_answer_dict, answer_keys_priority, Hk.
  - by rewrite normalize_answer_dict, answer_keys_priority, Hk.
Qed.

Lemma normalize_answer_defined raw : exists c, Ref.normalize_answer raw c.
Proof.
  induction raw as [|[]|n|s|l|d IH] using PyVal_dict_ind;
    try (eexists; constructor; fail).
  destruct (Ref.first_present Ref.answer_priority d) as [v|] eqn:Hk.
  - destruct (first_present_elem _ _ _ Hk) as (k & _ & Hin).
    destruct (IH k v Hin) as [c Hc]. exists c. by eapply Ref.na_key.
  - exists Ref.maybe. by apply Ref.na_no_key.
Qed.

Lemma normalize_answer_canonical raw : exists c, _normalize_answer raw = Ref.text c.
Proof.
  destruct (normalize_answer_defined raw) as [c Hc].
  exists c. by apply normalize_answer_sound.
Qed.


(** C9: the canonical strings are fixed points of [_normalize_answer], so
    normalizing a normalized answer changes nothing. *)
Theorem normalize_answer_idempotent (raw : PyVal) :
  _normalize_answer (VStr "yes") = "yes" /\
  _normalize_answer (VStr "no") = "no" /\
  _normalize_answer (VStr "maybe") = "maybe" /\
  _normalize_answer (VStr (_normalize_answer raw)) = _normalize_answer raw.
Proof.
  repeat split; try reflexivity.
  by destruct (normalize_answer_canonical raw) as [[] ->].
Qed.


(** C3: on the mappings {"correct": "no"} and {"result": "false"} the dict
    branch of [_parse_guess_result] applies [bool] to the stored string and
    returns [True], although the same strings passed bare give [False]; a
    game whose oracle answers {"correct": "no"} is reported as won in its
    first round. *)
Theorem parse_guess_result_negative_string_in_dict :
  _parse_guess_result (VDict [("correct", VStr "no")]) = true /\
  _parse_guess_result (VDict [("result", VStr "false")]) = true /\
  _parse_guess_result (VStr "no") = false /\
  _parse_guess_result (VStr "false") = false /\
  (let '(r, _, _) :=
     @run_single_game _ Stub.oracle_says_no 20 [Some "Is it alive?"; Some "zebra"] in
   won r = true /\ rounds_used r = 1 /\ final_guess r = "zebra").
Proof. vm_compute. by repeat split. Qed.

(** ** Reading the agent's reply *)


















(** The calls among the steps of a game. *)
Lemma played_Probed accesses : Full.played (Full.Probed <$> accesses) = [].
Proof. by induction accesses. Qed.

Lemma played_Played evs : Full.played (Full.Played <$> evs) = evs.
Proof.
  induction evs as [|e evs IH]; [done|].
  change (e :: Full.played (Full.Played <$> evs) = e :: evs). by rewrite IH.
Qed.

Lemma probed_Probed accesses : Full.probed (Full.Probed <$> accesses) = accesses.
Proof.
  induction accesses as [|a l IH]; [done|].
  change (a :: Full.probed (Full.Probed <$> l) = a :: l). by rewrite IH.
Qed.

Lemma probed_Played evs : Full.probed (Full.Played <$> evs) = [].
Proof. by induction evs. Qed.

Lemma played_steps e accesses evs :
  Full.played (Full.Played e :: (Full.Probed <$> accesses) ++ (Full.Played <$> evs))
  = e :: evs.
Proof.
  change (e :: Full.played ((Full.Probed <$> accesses) ++ (Full.Played <$> evs))
          = e :: evs).
  unfold Full.played at 1. rewrite omap_app.
  fold (Full.played (Full.Probed <$> accesses)).
  fold (Full.played (Full.Played <$> evs)).
  by rewrite played_Probed, played_Played.
Qed.

Lemma probed_steps e accesses evs :
  Full.probed (Full.Played e :: (Full.Probed <$> accesses) ++ (Full.Played <$> evs))
  = accesses.
Proof.
  change (Full.probed ((Full.Probed <$> accesses) ++ (Full.Played <$> evs))
          = accesses).
  unfold Full.probed at 1. rewrite omap_app.
  fold (Full.probed (Full.Probed <$> accesses)).
  fold (Full.probed (Full.Played <$> evs)).
  by rewrite probed_Probed, probed_Played, app_nil_r.
Qed.

(** ** One round of the game *)

Section GameProps.
Context {W : Type} `{Collaborators W}.

Lemma guess_text_unfold r :
  (if negb (PyStr.truthy (agent_text r)) then fallback_guess else agent_text r)
  = guess_text r.
Proof. unfold guess_text, PyStr.or_else. by destruct (PyStr.truthy _). Qed.

Lemma last_cons_default {A} (a d : A) l : List.last (a :: l) d = List.last l a.
Proof.
  revert a d. induction l as [|b l IH]; intros a d; [done|].
  change (List.last (a :: b :: l) d) with (List.last (b :: l) d).
  by rewrite (IH b d), (IH b a).
Qed.

Lemma dedup_while_spec obs past left : forall r0 w g w' evs,
  dedup_while obs past left (guess_text r0) w = (g, w', evs) ->
  exists tries,
    evs = EvAgent obs <$> tries /\
    (length tries <= left)%nat /\
    g = guess_text (List.last tries r0) /\
    (forall i t, (r0 :: tries) !! i = Some t -> (i < length tries)%nat ->
                 _norm (guess_text t) ∈ past) /\
    (_norm g ∈ past -> length tries = left).
Proof.
  induction left as [|left IH]; intros r0 w g w' evs; simpl.
  - intros [= <- <- <-]. exists [].
    split; [done|]. split; [done|]. split; [done|]. split; [|done].
    intros i t _ Hi. simpl in Hi. lia.
  - case_bool_decide as Hdup.
    + unfold mbind, run_bind, call_agent.
      destruct (guesser_agent obs w) as [r1 w1].
      destruct (dedup_while obs past left (guess_text r1) w1)
        as [[g1 w2] e2] eqn:E.
      intros [= <- <- <-].
      destruct (IH _ _ _ _ _ E) as (tries & -> & Hlen & -> & Hrej & Hfull).
      exists (r1 :: tries). rewrite last_cons_default.
      split; [done|]. split; [simpl; lia|]. split; [done|]. split.
      * intros [|i] t; simpl; [by intros [= <-]|].
        intros Ht Hi. apply (Hrej i t Ht). lia.
      * intros Hin. simpl. by rewrite Hfull.
    + intros [= <- <- <-]. exists [].
      split; [done|]. split; [simpl; lia|]. split; [done|]. split; [|done].
      intros i t _ Hi. simpl in Hi. lia.
Qed.

Lemma guess_turn_spec obs past w g w' evs :
  guess_turn obs past w = (g, w', evs) ->
  exists tries,
    evs = EvAgent obs <$> tries /\
    g = guess_text (List.last tries None) /\
    dedup_ok past tries.
Proof.
  unfold guess_turn, mbind, run_bind, call_agent.
  destruct (guesser_agent obs w) as [r0 w1].
  rewrite guess_text_unfold.
  destruct (dedup_while obs past retry_bound (guess_text r0) w1)
    as [[g1 w2] e2] eqn:E.
  intros [= <- <- <-].
  destruct (dedup_while_spec _ _ _ _ _ _ _ _ E)
    as (tries & -> & Hlen & -> & Hrej & Hfull).
  exists (r0 :: tries). unfold dedup_ok. rewrite !last_cons_default.
  split; [done|]. split; [done|]. split; [|split].
  - unfold retry_bound in *. simpl. lia.
  - intros i t Ht Hi. apply (Hrej i t Ht). simpl in Hi. lia.
  - intros Hin. simpl. by rewrite Hfull.
Qed.

Lemma play_round_spec st w st' g c w' evs :
  play_round st w = (st', g, c, w', evs) ->
  exists r,
    evs = round_events st r /\ st' = round_next st r /\
    g = r_guess r /\ c = r_correct r /\
    dedup_ok (past_guesses_norm st) (r_tries r).
Proof.
  unfold play_round, mbind, run_bind, call_agent at 1, call_validate_question,
    call_validate_guess.
  destruct (guesser_agent _ w) as [r1 w1].
  destruct (validate_question _ w1) as [raw_ans w2].
  destruct (guess_turn _ _ w2) as [[g1 w3] e3] eqn:E.
  destruct (validate_guess g1 w3) as [raw_res w4].
  intros [= <- <- <- <- <-].
  destruct (guess_turn_spec _ _ _ _ _ _ E) as (tries & -> & -> & Hok).
  by exists (mkRound r1 raw_ans tries raw_res).
Qed.

(** ** The state between rounds *)


Lemma state_after_guesses st rs :
  g_guesses (state_after st rs) = g_guesses st ++ (r_guess <$> rs).
Proof.
  revert st. induction rs as [|r rs IH]; intros st; simpl.
  - by rewrite app_nil_r.
  - change (state_after st (r :: rs)) with (state_after (round_next st r) rs).
    rewrite IH. simpl. by rewrite <- app_assoc.
Qed.




(** ** The round loop *)

Lemma for_qnum_spec n : forall q st w ret st' w' evs,
  for_qnum n q st w = (ret, st', w', evs) ->
  exists rs,
    evs = game_events st rs /\ st' = state_after st rs /\
    (length rs <= n)%nat /\ rounds_dedup_ok st rs /\
    match ret with
    | Some (g, qnum) =>
        exists rs0 r, rs = rs0 ++ [r] /\ Forall incorrect rs0 /\
                      r_correct r = true /\ g = r_guess r /\
                      qnum = q + Z.of_nat (length rs0)
    | None => length rs = n /\ Forall incorrect rs
    end.
Proof.
  induction n as [|n IH]; intros q st w ret st' w' evs; simpl.
  - intros [= <- <- <- <-]. by exists [].
  - unfold mbind, run_bind.
    destruct (play_round st w) as [[[[st1 g] c] w1] e1] eqn:E.
    destruct (play_round_spec _ _ _ _ _ _ _ E) as (r & -> & -> & -> & -> & Hok).
    destruct (r_correct r) eqn:Hc.
    + intros [= <- <- <- <-]. exists [r]. simpl.
      split; [by rewrite app_nil_r|]. split; [done|]. split; [lia|].
      split; [done|]. exists [], r. simpl. rewrite Z.add_0_r.
      by repeat split.
    + destruct (for_qnum n (q + 1) (round_next st r) w1)
        as [[[ret2 st2] w2] e2] eqn:E2.
      intros [= <- <- <- <-].
      destruct (IH _ _ _ _ _ _ _ E2) as (rs & -> & -> & Hlen & Hoks & Hret).
      exists (r :: rs). simpl.
      split; [done|]. split; [done|]. split; [lia|]. split; [done|].
      destruct ret2 as [[g qnum]|].
      * destruct Hret as (rs0 & r' & -> & Hinc & Hc' & -> & ->).
        exists (r :: rs0), r'. simpl.
        split; [done|]. split; [by constructor|]. split; [done|].
        split; [done|]. lia.
      * destruct Hret as [<- Hinc]. split; [done|]. by constructor.
Qed.

Lemma run_single_game_unfold max_rounds w :
  exists ret st w' evs,
    for_qnum (Z.to_nat max_rounds) 1 fresh_game (ValidatorModel w)
      = (ret, st, w', evs) /\
    run_single_game max_rounds w =
      (match ret with
       | Some (guess, qnum) =>
           mkRecord true guess qnum (target_word (ValidatorModel w))
       | None =>
           mkRecord false (last_guess (g_guesses st)) max_rounds
                    (target_word (ValidatorModel w))
       end, w', EvNewValidator :: evs).
Proof.
  unfold run_single_game, mbind, run_bind, call_ValidatorModel,
    _maybe_get_target_word.
  destruct (for_qnum _ 1 fresh_game (ValidatorModel w))
    as [[[ret st] w'] evs] eqn:E.
  exists ret, st, w', evs. split; [done|].
  destruct ret as [[g qnum]|]; simpl; by rewrite app_nil_r.
Qed.

(** The calls of a whole game are those of the validator's construction
    followed by those of its rounds. *)
Lemma run_single_game_rounds max_rounds w :
  exists rs,
    events (run_single_game max_rounds w)
      = EvNewValidator :: game_events fresh_game rs /\
    (length rs <= Z.to_nat max_rounds)%nat /\
    rounds_dedup_ok fresh_game rs /\
    let r := result (run_single_game max_rounds w) in
    maybe_target r = target_word (ValidatorModel w) /\
    if won r then
      exists rs0 r', rs = rs0 ++ [r'] /\ Forall incorrect rs0 /\
                     r_correct r' = true /\ final_guess r = r_guess r' /\
                     rounds_used r = 1 + Z.of_nat (length rs0)
    else
      length rs = Z.to_nat max_rounds /\ Forall incorrect rs /\
      rounds_used r = max_rounds /\
      final_guess r = last_guess (r_guess <$> rs).
Proof.
  destruct (run_single_game_unfold max_rounds w)
    as (ret & st & w' & evs & Hloop & ->).
  destruct (for_qnum_spec _ _ _ _ _ _ _ _ Hloop)
    as (rs & -> & -> & Hlen & Hoks & Hret).
  exists rs. unfold events, result. simpl.
  split; [done|]. split; [done|]. split; [done|].
  destruct ret as [[g qnum]|]; simpl.
  - split; [done|].
    destruct Hret as (rs0 & r' & -> & Hinc & Hc & -> & ->). by exists rs0, r'.
  - destruct Hret as [Hn Hinc]. by rewrite state_after_guesses.
Qed.

(** ** The record of calls is faithful *)

Lemma replays_app w e1 w1 e2 w2 :
  replays w e1 w1 -> replays w1 e2 w2 -> replays w (e1 ++ e2) w2.
Proof.
  revert w. induction e1 as [|[|obs ret|q raw|g raw] e1 IH]; intros w; simpl.
  - by intros ->.
  - apply IH.
  - intros [? ?] ?. split; [done|]. by apply IH.
  - intros [? ?] ?. split; [done|]. by apply IH.
  - intros [? ?] ?. split; [done|]. by apply IH.
Qed.

Lemma replayed_ret {A} (a : A) : replayed (mret a).
Proof. by intros w. Qed.

Lemma replayed_bind {A B} (m : Run W A) (f : A -> Run W B) :
  replayed m -> (forall a, replayed (f a)) -> replayed (m ≫= f).
Proof.
  intros Hm Hf w. unfold mbind, run_bind.
  specialize (Hm w). destruct (m w) as [[a w1] e1].
  specialize (Hf a w1). destruct (f a w1) as [[b w2] e2].
  simpl in *. by eapply replays_app.
Qed.

Lemma replayed_call_agent obs : replayed (call_agent obs).
Proof.
  intros w. unfold call_agent.
  destruct (guesser_agent obs w) as [r w'] eqn:E. simpl. by rewrite E.
Qed.

Lemma replayed_call_validate_question q : replayed (call_validate_question q).
Proof.
  intros w. unfold call_validate_question.
  destruct (validate_question q w) as [r w'] eqn:E. simpl. by rewrite E.
Qed.

Lemma replayed_call_validate_guess g : replayed (call_validate_guess g).
Proof.
  intros w. unfold call_validate_guess.
  destruct (validate_guess g w) as [r w'] eqn:E. simpl. by rewrite E.
Qed.

Lemma replayed_dedup_while obs past left guess :
  replayed (dedup_while obs past left guess).
Proof.
  revert guess. induction left as [|left IH]; intros guess; simpl.
  - apply replayed_ret.
  - destruct (bool_decide _); [|apply replayed_ret].
    apply replayed_bind; [apply replayed_call_agent|]. intros r. apply IH.
Qed.

Lemma replayed_guess_turn obs past : replayed (guess_turn obs past).
Proof.
  unfold guess_turn.
  apply replayed_bind; [apply replayed_call_agent|].
  intros r. apply replayed_dedup_while.
Qed.

Lemma replayed_play_round st : replayed (play_round st).
Proof.
  unfold play_round.
  apply replayed_bind; [apply replayed_call_agent|]. intros r.
  apply replayed_bind; [apply replayed_call_validate_question|]. intros raw_ans.
  apply replayed_bind; [apply replayed_guess_turn|]. intros guess.
  apply replayed_bind; [apply replayed_call_validate_guess|]. intros raw_res.
  apply replayed_ret.
Qed.

Lemma replayed_for_qnum n : forall qnum st, replayed (for_qnum n qnum st).
Proof.
  induction n as [|n IH]; intros qnum st; simpl.
  - apply replayed_ret.
  - apply replayed_bind; [apply replayed_play_round|].
    intros [[st' guess] correct].
    destruct correct; [apply replayed_ret | apply IH].
Qed.

Lemma replayed_run_single_game max_rounds : replayed (run_single_game max_rounds).
Proof.
  unfold run_single_game.
  apply replayed_bind; [by intros w|]. intros _.
  apply replayed_bind; [by intros w|]. intros target.
  apply replayed_bind; [apply replayed_for_qnum|].
  intros [[[guess qnum]|] st]; apply replayed_ret.
Qed.

(** ** Reading rounds off the calls *)

Lemma omap_agent_calls {A} (f : Event -> option A) obs tries :
  (forall o r, f (EvAgent o r) = None) -> omap f (EvAgent obs <$> tries) = [].
Proof.
  intros Hf. induction tries as [|t tries IH]; simpl; [done|]. by rewrite Hf.
Qed.

Lemma guess_results_game st rs :
  guess_results (game_events st rs) = r_correct <$> rs.
Proof.
  revert st. induction rs as [|r rs IH]; intros st; [done|].
  unfold guess_results in *. simpl. rewrite !omap_app, IH.
  by rewrite omap_agent_calls.
Qed.

Lemma validated_guesses_game st rs :
  validated_guesses (game_events st rs) = r_guess <$> rs.
Proof.
  revert st. induction rs as [|r rs IH]; intros st; [done|].
  unfold validated_guesses in *. simpl. rewrite !omap_app, IH.
  by rewrite omap_agent_calls.
Qed.

Lemma validated_questions_game st rs :
  validated_questions (game_events st rs) = r_question <$> rs.
Proof.
  revert st. induction rs as [|r rs IH]; intros st; [done|].
  unfold validated_questions in *. simpl. rewrite !omap_app, IH.
  by rewrite omap_agent_calls.
Qed.

Lemma last_guess_last (l : list string) g :
  last l = Some g -> last_guess l = g.
Proof.
  unfold last_guess. induction l as [|a [|b l] IH]; simpl; [done| |].
  - by intros [= ->].
  - intros Hl. by apply IH.
Qed.

Lemma Forall_incorrect_lookup rs i :
  Forall incorrect rs -> (i < length rs)%nat ->
  (r_correct <$> rs) !! i = Some false.
Proof.
  intros Hinc Hi. destruct (lookup_lt_is_Some_2 rs i Hi) as [r Hr].
  rewrite list_lookup_fmap, Hr. simpl. f_equal.
  rewrite Forall_forall in Hinc. apply Hinc. by eapply list_elem_of_lookup_2.
Qed.

(** ** The game record *)

(** C1: for [max_rounds >= 1].  The recorded calls of a game are the calls
    the collaborators really answer, in the order made, each in the world
    left by the one before it, and they are the construction of the
    validator followed by exactly [rounds_used] rounds, each of which ends
    with one [validate_guess]; the verdicts are what [_parse_guess_result]
    makes of what those calls returned.  [rounds_used] lies in
    [1, max_rounds]; [won] is true exactly when the verdict of round
    [rounds_used] was true and that of every earlier round false; a won
    game reports the guess of round [rounds_used], and a lost game reports
    [max_rounds] and the last guess made. *)
Theorem run_single_game_record (max_rounds : Z) (w : W) :
  1 <= max_rounds ->
  let run := run_single_game max_rounds w in
  let r := result run in
  let verdicts := guess_results (events run) in
  let guesses := validated_guesses (events run) in
  let n := Z.to_nat (rounds_used r) in
  replays w (events run) run.1.2 /\
  (exists rs, events run = EvNewValidator :: game_events fresh_game rs /\
              length rs = n /\
              verdicts = (fun r => _parse_guess_result (r_raw_res r)) <$> rs /\
              guesses = r_guess <$> rs) /\
  1 <= rounds_used r <= max_rounds /\
  length verdicts = n /\ length guesses = n /\
  (won r = true <->
   verdicts !! (n - 1)%nat = Some true /\
   forall i, (i < n - 1)%nat -> verdicts !! i = Some false) /\
  (won r = true -> guesses !! (n - 1)%nat = Some (final_guess r)) /\
  (won r = false ->
   rounds_used r = max_rounds /\ last guesses = Some (final_guess r)).
Proof.
  intros Hmax. cbv zeta.
  split; [apply replayed_run_single_game|].
  destruct (run_single_game_rounds max_rounds w)
    as (rs & -> & Hlen & _ & _ & Hrec).
  change (guess_results (EvNewValidator :: ?e)) with (guess_results e).
  change (validated_guesses (EvNewValidator :: ?e)) with (validated_guesses e).
  rewrite guess_results_game, validated_guesses_game.
  destruct (won (result (run_single_game max_rounds w))).
  - destruct Hrec as (rs0 & r' & -> & Hinc & Hc & -> & ->).
    rewrite length_app in Hlen. simpl in Hlen.
    rewrite !length_fmap, !length_app. simpl.
    replace (Z.to_nat (1 + Z.of_nat (length rs0))) with (S (length rs0)) by lia.
    replace (S (length rs0) - 1)%nat with (length rs0) by lia.
    split.
    { exists (rs0 ++ [r']). rewrite length_app. simpl.
      split; [done|]. split; [lia|]. done. }
    split; [lia|]. split; [lia|]. split; [lia|].
    rewrite !fmap_app. simpl.
    split; [|split; [|done]].
    + split; [intros _|done]. split.
      * rewrite lookup_app_r; rewrite length_fmap; [|done].
        by rewrite Nat.sub_diag, <- Hc.
      * intros i Hi. rewrite lookup_app_l; [|by rewrite length_fmap].
        by apply Forall_incorrect_lookup.
    + intros _. rewrite lookup_app_r; rewrite length_fmap; [|done].
      by rewrite Nat.sub_diag.
  - destruct Hrec as (Hn & Hinc & -> & ->).
    rewrite !length_fmap, Hn.
    split; [by exists rs|].
    split; [lia|]. split; [done|]. split; [done|].
    split; [|split; [done|]].
    + split; [done|]. intros [Htrue _].
      rewrite Forall_incorrect_lookup in Htrue; [done|done|lia].
    + intros _. split; [done|].
      destruct (r_guess <$> rs) as [|g l] eqn:El.
      * apply (f_equal length) in El. rewrite length_fmap in El. simpl in El. lia.
      * rewrite <- El. destruct (last (r_guess <$> rs)) as [g'|] eqn:Hl.
        -- by rewrite (last_guess_last _ _ Hl).
        -- apply last_None in Hl. by rewrite El in Hl.
Qed.

(** C10: with [max_rounds <= 0] the loop body never runs: the only call is
    the construction of the validator (no agent call, no question or guess
    validation), and the record is a loss with the empty final guess and
    [rounds_used = max_rounds]. *)
Theorem run_single_game_no_rounds (max_rounds : Z) (w : W) :
  max_rounds <= 0 ->
  run_single_game max_rounds w =
    (mkRecord false "" max_rounds (target_word (ValidatorModel w)),
     ValidatorModel w, [EvNewValidator]) /\
  agent_calls (events (run_single_game max_rounds w)) = [] /\
  validated_questions (events (run_single_game max_rounds w)) = [] /\
  validated_guesses (events (run_single_game max_rounds w)) = [] /\
  rounds_used (result (run_single_game max_rounds w)) <= 0 /\
  ~ (1 <= rounds_used (result (run_single_game max_rounds w)) <= max_rounds).
Proof.
  intros Hmax.
  assert (run_single_game max_rounds w =
          (mkRecord false "" max_rounds (target_word (ValidatorModel w)),
           ValidatorModel w, [EvNewValidator])) as ->.
  { unfold run_single_game.
    replace (Z.to_nat max_rounds) with 0%nat by lia. reflexivity. }
  unfold events, result. simpl. repeat split; try done. lia.
Qed.

(** ** Duplicate guesses *)

Lemma game_events_app st rs1 rs2 :
  game_events st (rs1 ++ rs2)
  = game_events st rs1 ++ game_events (state_after st rs1) rs2.
Proof.
  revert st. induction rs1 as [|r rs1 IH]; intros st; [done|].
  change (game_events st ((r :: rs1) ++ rs2))
    with (round_events st r ++ game_events (round_next st r) (rs1 ++ rs2)).
  change (game_events st (r :: rs1))
    with (round_events st r ++ game_events (round_next st r) rs1).
  by rewrite IH, <- app_assoc.
Qed.






End GameProps.

(** ** Blank replies *)

Section FullGameProps.
Context {W : Type} `{Collaborators W} `{Target.Validator W}.


(** When the probe returns a value and leaves the world as it is, the game
    is the one described through [target_word]: same calls, same final
    world, same record. *)
Lemma run_single_game_with_returning_probe max_rounds w accesses :
  Target._maybe_get_target_word (ValidatorModel w)
  = (inl (Target.Data (target_word (ValidatorModel w))), ValidatorModel w,
     accesses) ->
  let full := Full.run_single_game max_rounds w in
  let run := run_single_game max_rounds w in
  Full.played full.2 = events run /\ Full.probed full.2 = accesses /\
  full.1.2 = run.1.2 /\
  full.1.1 = inl (won (result run), final_guess (result run),
                  rounds_used (result run),
                  Target.Data (maybe_target (result run))).
Proof.
  intros Hprobe. cbv zeta. unfold Full.run_single_game. rewrite Hprobe.
  destruct (run_single_game_unfold max_rounds w)
    as (ret & st & w' & evs & -> & ->).
  unfold events, result. cbn [fst snd].
  rewrite played_steps, probed_steps.
  by destruct ret as [[guess qnum]|].
Qed.

End FullGameProps.

(** ** The evaluation driver *)

Lemma count_won_cons r records :
  count_won (r :: records) = Z.b2z (won r) + count_won records.
Proof. unfold count_won. simpl. destruct (won r); simpl; lia. Qed.

Lemma count_won_bounds records :
  0 <= count_won records <= Z.of_nat (length records).
Proof.
  unfold count_won. pose proof (List.filter_length_le won records). lia.
Qed.

Lemma elem_of_upto n z : 0 <= z <= Z.of_nat n -> In z (upto n).
Proof.
  intros Hz. unfold upto. apply in_map_iff. exists (Z.to_nat z).
  split; [lia|]. apply in_seq. lia.
Qed.

Lemma rates_ok_upto_spec bound wins total :
  rates_ok_upto bound = true ->
  1 <= total <= Z.of_nat bound -> 0 <= wins <= total ->
  rate_ok wins total = true.
Proof.
  unfold rates_ok_upto. rewrite forallb_forall. intros Hall Ht Hw.
  specialize (Hall total (elem_of_upto bound total ltac:(lia))).
  apply orb_true_iff in Hall as [Hz|Hall]; [lia|].
  rewrite forallb_forall in Hall. apply Hall, elem_of_upto. lia.
Qed.

Lemma rates_ok_upto_100 : rates_ok_upto 100 = true.
Proof. vm_compute. reflexivity. Qed.

(** For up to a hundred games the printed rate is a nearest tenth of a
    percent of [wins / total]. *)
Lemma rate_ok_100 wins total :
  1 <= total <= 100 -> 0 <= wins <= total -> rate_ok wins total = true.
Proof.
  intros Ht Hw. apply (rates_ok_upto_spec 100); [apply rates_ok_upto_100|lia|lia].
Qed.

Lemma format_pct1_nearest wins total :
  rate_ok wins total = true ->
  exists t, 0 <= t /\ 2 * Z.abs (t * total - 1000 * wins) <= total /\
            PyFloat.format_pct1 (PyFloat.truediv wins total)
            = PyFloat.render false t.
Proof.
  unfold rate_ok, PyFloat.format_pct1.
  destruct (PyFloat.tenths _) as [[[] t]|]; try done.
  intros [? ?]%andb_true_iff. exists t. split; [lia|]. split; [lia|done].
Qed.

Section DriverProps.
Context {W : Type} `{Collaborators W}.

Lemma play_games_length n max_rounds (w : W) :
  length (play_games n max_rounds w).1 = n.
Proof.
  revert w. induction n as [|n IH]; intros w; simpl; [done|].
  destruct (run_single_game max_rounds w) as [[r w1] evs].
  specialize (IH w1). destruct (play_games n max_rounds w1) as [games w2].
  simpl in *. by rewrite IH.
Qed.

Lemma for_i_spec n : forall i max_rounds wins results (w : W),
  for_i n i max_rounds wins results w =
  let games := (play_games n max_rounds w).1 in
  (wins + count_won (fst <$> games), results ++ (fst <$> games),
   (play_games n max_rounds w).2, games_output i games).
Proof.
  induction n as [|n IH]; intros i max_rounds wins results w; simpl.
  - unfold count_won. simpl. by rewrite Z.add_0_r, app_nil_r.
  - unfold calls. destruct (run_single_game max_rounds w) as [[r w1] evs].
    rewrite IH. destruct (play_games n max_rounds w1) as [games w2]. simpl.
    rewrite count_won_cons, <- app_assoc, Z.add_assoc. reflexivity.
Qed.

Lemma main_spec num max_rounds (w : W) :
  let games := (play_games (Z.to_nat num) max_rounds w).1 in
  let wins := count_won (fst <$> games) in
  main num max_rounds w =
  if num =? 0 then
    (Raised ZeroDivisionError, (play_games (Z.to_nat num) max_rounds w).2,
     games_output 1 games ++ [Print Rule])
  else
    (Returned, (play_games (Z.to_nat num) max_rounds w).2,
     games_output 1 games
     ++ [Print Rule;
         Print (Summary wins num (PyFloat.format_pct1 (PyFloat.truediv wins num)));
         Print Rule]).
Proof.
  unfold main. rewrite for_i_spec. simpl. by destruct (num =? 0).
Qed.

Lemma printed_app effs1 effs2 :
  printed (effs1 ++ effs2) = printed effs1 ++ printed effs2.
Proof. apply omap_app. Qed.

Lemma calls_made_app effs1 effs2 :
  calls_made (effs1 ++ effs2) = calls_made effs1 ++ calls_made effs2.
Proof. apply omap_app. Qed.

Lemma printed_calls evs : printed (Call <$> evs) = [].
Proof. induction evs as [|e evs IH]; [done|]. exact IH. Qed.

Lemma calls_made_calls evs : calls_made (Call <$> evs) = evs.
Proof.
  induction evs as [|e evs IH]; [done|].
  change (calls_made (Call <$> e :: evs)) with (e :: calls_made (Call <$> evs)).
  by rewrite IH.
Qed.

Lemma games_output_cons i r evs games :
  games_output i ((r, evs) :: games)
  = (Call <$> evs) ++ [Print (game_line i r)] ++ games_output (i + 1) games.
Proof. done. Qed.

Lemma printed_games_output i (games : list (GameRecord * list Event)) :
  printed (games_output i games) = game_lines i (fst <$> games).
Proof.
  revert i. induction games as [|[r evs] games IH]; intros i; [done|].
  rewrite games_output_cons, !printed_app, printed_calls, IH. done.
Qed.

Lemma calls_made_games_output i (games : list (GameRecord * list Event)) :
  calls_made (games_output i games) = concat (snd <$> games).
Proof.
  revert i. induction games as [|[r evs] games IH]; intros i; [done|].
  rewrite games_output_cons, !calls_made_app, calls_made_calls, IH. done.
Qed.

Lemma validators_built_app evs1 evs2 :
  validators_built (evs1 ++ evs2)
  = (validators_built evs1 + validators_built evs2)%nat.
Proof. unfold validators_built. by rewrite List.filter_app, length_app. Qed.

Lemma validators_built_round st r : validators_built (round_events st r) = 0%nat.
Proof.
  unfold round_events. rewrite !validators_built_app.
  assert (validators_built (map (EvAgent (guess_obs st r)) (r_tries r)) = 0%nat)
    as ->; [|done].
  induction (r_tries r) as [|t l IHl]; [done|]. exact IHl.
Qed.

Lemma validators_built_rounds st rs : validators_built (game_events st rs) = 0%nat.
Proof.
  revert st. induction rs as [|r rs IH]; intros st; [done|].
  change (game_events st (r :: rs))
    with (round_events st r ++ game_events (round_next st r) rs).
  by rewrite validators_built_app, validators_built_round, IH.
Qed.

(** Every game constructs exactly one validator. *)
Lemma validators_built_game max_rounds (w : W) :
  validators_built (events (run_single_game max_rounds w)) = 1%nat.
Proof.
  destruct (run_single_game_rounds max_rounds w) as (rs & -> & _).
  change (validators_built (EvNewValidator :: ?e)) with (S (validators_built e)).
  by rewrite validators_built_rounds.
Qed.

Lemma validators_built_games n max_rounds (w : W) :
  validators_built (concat (snd <$> (play_games n max_rounds w).1)) = n.
Proof.
  revert w. induction n as [|n IH]; intros w; [done|].
  pose proof (validators_built_game max_rounds w) as Hone.
  specialize (IH (run_single_game max_rounds w).1.2).
  cbn [play_games]. unfold events in Hone.
  destruct (run_single_game max_rounds w) as [[r w1] evs].
  cbn [fst snd] in *.
  destruct (play_games n max_rounds w1) as [games w2].
  cbn [fst snd fmap list_fmap concat] in *.
  by rewrite validators_built_app, Hone, IH.
Qed.

(** What [main] does when [N] is not zero. *)
Lemma main_report (N max_rounds : Z) (w : W) :
  N <> 0 ->
  let games := (play_games (Z.to_nat N) max_rounds w).1 in
  let wins := count_won (fst <$> games) in
  let rate := PyFloat.format_pct1 (PyFloat.truediv wins N) in
  let run := main N max_rounds w in
  run = (Returned, (play_games (Z.to_nat N) max_rounds w).2,
         games_output 1 games ++
         [Print Rule; Print (Summary wins N rate); Print Rule]) /\
  validators_built (calls_made run.2) = Z.to_nat N /\
  printed run.2 = game_lines 1 (fst <$> games) ++ [Rule; Summary wins N rate; Rule].
Proof.
  intros HN. cbv zeta. rewrite main_spec. cbv zeta.
  destruct (Z.eqb_spec N 0) as [->|_]; [done|].
  split; [done|]. cbn [snd]. split.
  - rewrite calls_made_app, calls_made_games_output.
    change (calls_made [_; _; _]) with (@nil Event). rewrite app_nil_r.
    apply validators_built_games.
  - by rewrite printed_app, printed_games_output.
Qed.

(** C7: for [N >= 1], [main] returns normally after running [N] games one
    after another ([N] validators are constructed, each game starting in the
    world the previous one left); it prints the [N] game lines numbered from
    1 in order, then the summary, whose win count is the number of records
    with [won] true, whose total is [N], and whose rate is [wins / total]
    formatted by [".1%"]; for up to a hundred games that text is the exact
    percentage rounded to a nearest tenth. *)
Theorem main_aggregates (N max_rounds : Z) (w : W) :
  1 <= N ->
  let games := (play_games (Z.to_nat N) max_rounds w).1 in
  let records := fst <$> games in
  let wins := count_won records in
  let rate := PyFloat.format_pct1 (PyFloat.truediv wins N) in
  let run := main N max_rounds w in
  Z.of_nat (length records) = N /\
  0 <= wins <= N /\
  run = (Returned, (play_games (Z.to_nat N) max_rounds w).2,
         games_output 1 games ++
         [Print Rule; Print (Summary wins N rate); Print Rule]) /\
  validators_built (calls_made run.2) = Z.to_nat N /\
  printed run.2 = game_lines 1 records ++ [Rule; Summary wins N rate; Rule] /\
  (N <= 100 ->
   exists t, 0 <= t /\ 2 * Z.abs (t * N - 1000 * wins) <= N /\
             rate = PyFloat.render false t).
Proof.
  intros HN. cbv zeta.
  pose proof (play_games_length (Z.to_nat N) max_rounds w) as Hlen.
  pose proof (count_won_bounds ((play_games (Z.to_nat N) max_rounds w).1.*1))
    as Hwins.
  rewrite length_fmap, Hlen in *.
  destruct (main_report N max_rounds w ltac:(lia)) as (Hrun & Hbuilt & Hprinted).
  split; [lia|]. split; [lia|]. split; [done|]. split; [done|]. split; [done|].
  intros H100. apply format_pct1_nearest, rate_ok_100; lia.
Qed.

(** C2, as the code has it: [main] does not validate its configuration.
    With [N <= 0] no game runs (no collaborator is called and the world is
    left as it was); with [N >= 1] it runs [N] games whatever [max_rounds]
    is, prints their lines and the summary, and returns normally, the
    divisor of [wins / total] being [N], which is not zero. *)
Theorem main_runs_unvalidated (N max_rounds : Z) (w : W) :
  (N <= 0 ->
   calls_made (main N max_rounds w).2 = [] /\ (main N max_rounds w).1.2 = w) /\
  (1 <= N ->
   (main N max_rounds w).1.1 = Returned /\
   validators_built (calls_made (main N max_rounds w).2) = Z.to_nat N /\
   exists wins rate,
     printed (main N max_rounds w).2
     = game_lines 1 ((play_games (Z.to_nat N) max_rounds w).1.*1)
       ++ [Rule; Summary wins N rate; Rule] /\ N <> 0).
Proof.
  split.
  - intros HN. rewrite main_spec. cbv zeta.
    replace (Z.to_nat N) with 0%nat by lia. simpl.
    by destruct (N =? 0).
  - intros HN.
    destruct (main_report N max_rounds w ltac:(lia)) as (Hrun & Hbuilt & Hprinted).
    split; [by rewrite Hrun|]. split; [done|].
    eexists _, _. split; [exact Hprinted|lia].
Qed.

End DriverProps.

(** ** The theorems at concrete inputs *)

Lemma run_single_game_record_witness :
  1 <= 3 /\
  (let run := @run_single_game _ Stub.lion_oracle 3 Stub.lion_script in
   let r := result run in
   let verdicts := guess_results (events run) in
   let guesses := validated_guesses (events run) in
   let n := Z.to_nat (rounds_used r) in
   @replays _ Stub.lion_oracle Stub.lion_script (events run) run.1.2 /\
   (exists rs, events run = EvNewValidator :: game_events fresh_game rs /\
               length rs = n /\
               verdicts = (fun r => _parse_guess_result (r_raw_res r)) <$> rs /\
               guesses = r_guess <$> rs) /\
   1 <= rounds_used r <= 3 /\
   length verdicts = n /\ length guesses = n /\
   (won r = true <->
    verdicts !! (n - 1)%nat = Some true /\
    forall i, (i < n - 1)%nat -> verdicts !! i = Some false) /\
   (won r = true -> guesses !! (n - 1)%nat = Some (final_guess r)) /\
   (won r = false ->
    rounds_used r = 3 /\ last guesses = Some (final_guess r))).
Proof.
  split; [lia|].
  exact (@run_single_game_record _ Stub.lion_oracle 3 Stub.lion_script
           ltac:(lia)).
Defined.






(** With a silent agent and a validator whose probe returns, the same game
    is played to its end: fallback question and fallback guess in every
    round. *)
Example scenario_blank_agent :
  (@Full.run_single_game unit Stub.blank_agent Target.selftest_object 2 tt).1.1
  = inl (false, "unknown", 2, Target.Data (VStr "lion")) /\
  validated_questions (Full.played
    (@Full.run_single_game unit Stub.blank_agent Target.selftest_object 2 tt).2)
  = ["Is it related to a well-known person?";
     "Is it related to a well-known person?"] /\
  validated_guesses (Full.played
    (@Full.run_single_game unit Stub.blank_agent Target.selftest_object 2 tt).2)
  = ["unknown"; "unknown"] /\
  length (agent_calls (Full.played
    (@Full.run_single_game unit Stub.blank_agent Target.selftest_object 2 tt).2))
  = 9%nat.
Proof. by vm_compute. Qed.

Lemma run_single_game_no_rounds_witness :
  0 <= 0 /\
  @run_single_game _ Stub.selftest 0 tt
  = (mkRecord false "" 0 (VStr "lion"), tt, [EvNewValidator]).
Proof.
  split; [lia|].
  exact (proj1 (@run_single_game_no_rounds _ Stub.selftest 0 tt ltac:(lia))).
Defined.

Lemma main_aggregates_witness :
  1 <= 3 /\
  printed (@main _ Stub.selftest 3 5 tt).2
  = [GameLine 1 "WIN" 1 "lion" (Some (VStr "lion"));
     GameLine 2 "WIN" 1 "lion" (Some (VStr "lion"));
     GameLine 3 "WIN" 1 "lion" (Some (VStr "lion"));
     Rule; Summary 3 3 "100.0%"; Rule].
Proof.
  split; [lia|].
  exact (proj1 (proj2 (proj2 (proj2 (proj2
           (@main_aggregates _ Stub.selftest 3 5 tt ltac:(lia))))))).
Defined.

Lemma main_runs_unvalidated_witness :
  (-2 <= 0 /\ calls_made (@main _ Stub.selftest (-2) 5 tt).2 = []) /\
  (1 <= 1 /\ (@main _ Stub.selftest 1 0 tt).1.1 = Returned).
Proof.
  split; (split; [lia|]).
  - exact (proj1 (proj1 (@main_runs_unvalidated _ Stub.selftest (-2) 5 tt)
                        ltac:(lia))).
  - exact (proj1 (proj2 (@main_runs_unvalidated _ Stub.selftest 1 0 tt)
                        ltac:(lia))).
Defined.

(** C2, as stated, fails: with [N = 0] the run ends in a division by zero
    after the first rule has been printed, and with [N = 1] and
    [max_rounds = 0] a game is played and reported; neither run is
    rejected. *)
Lemma main_rejects_no_configuration :
  @main _ Stub.selftest 0 20 tt = (Raised ZeroDivisionError, tt, [Print Rule]) /\
  ~ rejects_configuration (@main _ Stub.selftest 0 20 tt) /\
  @main _ Stub.selftest 1 0 tt
  = (Returned, tt,
     [Call EvNewValidator;
      Print (GameLine 1 "LOSS" 0 "" (Some (VStr "lion")));
      Print Rule; Print (Summary 0 1 "0.0%"); Print Rule]) /\
  ~ rejects_configuration (@main _ Stub.selftest 1 0 tt).
Proof.
  split; [by vm_compute|]. split.
  - intros (exc & _ & _ & Hout). vm_compute in Hout. discriminate.
  - split; [by vm_compute|].
    intros (exc & _ & _ & Hout). vm_compute in Hout. discriminate.
Qed.

(** ** The specification's scenarios *)

(** Scenario 1: the agent guesses "lion" against an oracle whose target is
    "lion": a win in round 1. *)
Example scenario_win_in_round_1 :
  result (@run_single_game _ Stub.selftest 20 tt)
  = mkRecord true "lion" 1 (VStr "lion").
Proof. by vm_compute. Qed.

(** Scenario 2: the agent only ever guesses "zebra"; with three rounds the
    game is lost after exactly three rounds, the final guess being "zebra". *)
Example scenario_loss_after_3_rounds :
  let run := @run_single_game _ Stub.lion_oracle 3 Stub.zebra_script in
  result run = mkRecord false "zebra" 3 VNone /\
  validated_guesses (events run) = ["zebra"; "zebra"; "zebra"] /\
  run.1.2 = [].
Proof. by vm_compute. Qed.

(** Scenario 3: a guess already accepted is offered again and again: the
    agent is re-invoked five times, six calls in all, and the duplicate is
    then accepted; a fresh guess offered on a re-invocation is accepted at
    once. *)
Example scenario_retry_bound :
  agent_calls (events (@run_single_game _ Stub.lion_oracle 2
     (Some "q1" :: Some "zebra" :: Some "q2" :: replicate 6 (Some " ZEBRA "))))
  = (let o1 := mkObs ASK [] [] [] [] in
     let o2 := mkObs GUESS ["q1"] ["yes"] [] ["yes"] in
     let o3 := mkObs ASK ["q1"] ["yes"] ["zebra"] ["yes"] in
     let o4 := mkObs GUESS ["q1"; "q2"] ["yes"; "yes"] ["zebra"] ["yes"; "yes"] in
     [(o1, Some "q1"); (o2, Some "zebra"); (o3, Some "q2")]
     ++ replicate 6 (o4, Some " ZEBRA ")) /\
  validated_guesses (events (@run_single_game _ Stub.lion_oracle 2
     (Some "q1" :: Some "zebra" :: Some "q2" :: replicate 6 (Some " ZEBRA "))))
  = ["zebra"; "ZEBRA"] /\
  validated_guesses (events (@run_single_game _ Stub.lion_oracle 2
     [Some "q1"; Some "zebra"; Some "q2"; Some "Zebra"; Some "zebra "; Some "okapi"]))
  = ["zebra"; "okapi"].
Proof. by vm_compute. Qed.

(** Scenario 4: the raw answer {"result": "YES"} normalizes to "yes". *)
Example scenario_dict_answer :
  _normalize_answer (VDict [("result", VStr "YES")]) = "yes".
Proof. reflexivity. Qed.

(** Scenario 5: five one-round games, two of them won: two WIN lines and
    the summary "2/5 wins (40.0%)". *)
Example scenario_two_wins_of_five :
  printed (@main _ Stub.lion_oracle 5 1
     [Some "q"; Some "lion"; Some "q"; Some "zebra"; Some "q"; Some "Lion ";
      Some "q"; None; Some "q"; Some "okapi"]).2
  = [GameLine 1 "WIN" 1 "lion" None; GameLine 2 "LOSS" 1 "zebra" None;
     GameLine 3 "WIN" 1 "Lion" None; GameLine 4 "LOSS" 1 "unknown" None;
     GameLine 5 "LOSS" 1 "okapi" None;
     Rule; Summary 2 5 "40.0%"; Rule].
Proof. by vm_compute. Qed.

(** An agent that never answers: the fallback question and the fallback
    guess are used, and the game still ends with a record. *)
Example scenario_silent_agent :
  let run := @run_single_game _ Stub.lion_oracle 2 [] in
  result run = mkRecord false "unknown" 2 VNone /\
  validated_questions (events run) = [fallback_question; fallback_question] /\
  validated_guesses (events run) = ["unknown"; "unknown"] /\
  length (agent_calls (events run)) = 9%nat.
Proof. by vm_compute. Qed.

(** * Further properties of the code *)

(** ** Trimming *)

Lemma lower_app s t :
  PyStr.lower (String.append s t) = String.append (PyStr.lower s) (PyStr.lower t).
Proof. induction s as [|c s IH]; simpl; [done|]. by rewrite IH. Qed.

Lemma lstrip_all_space s : all_space s = true -> PyStr.lstrip s = "".
Proof.
  induction s as [|c s IH]; simpl; [done|].
  intros [Hc Hs]%andb_true_iff. rewrite Hc. auto.
Qed.

Lemma rstrip_all_space s : all_space s = true -> PyStr.rstrip s = "".
Proof.
  induction s as [|c s IH]; simpl; [done|].
  intros [Hc Hs]%andb_true_iff. by rewrite IH, Hc.
Qed.

Lemma lstrip_space_app pre s :
  all_space pre = true -> PyStr.lstrip (String.append pre s) = PyStr.lstrip s.
Proof.
  induction pre as [|c pre IH]; simpl; [done|].
  intros [Hc Hs]%andb_true_iff. rewrite Hc. auto.
Qed.

Lemma rstrip_app_space s post :
  all_space post = true -> PyStr.rstrip (String.append s post) = PyStr.rstrip s.
Proof.
  intros Hpost. induction s as [|c s IH]; simpl.
  - by apply rstrip_all_space.
  - by rewrite IH.
Qed.

Lemma lstrip_cases s :
  (all_space s = true /\ PyStr.lstrip s = "") \/
  (exists c s', PyStr.lstrip s = String c s' /\ PyStr.is_space c = false /\
                forall t, PyStr.lstrip (String.append s t)
                          = String.append (PyStr.lstrip s) t).
Proof.
  induction s as [|c s IH]; simpl; [by left|].
  destruct (PyStr.is_space c) eqn:Hc; simpl.
  - destruct IH as [[? ?]|(c' & s' & ? & ? & ?)]; [by left|].
    right. by exists c', s'.
  - right. by exists c, s.
Qed.

Lemma strip_padding pre s post :
  all_space pre = true -> all_space post = true ->
  PyStr.strip (String.append pre (String.append s post)) = PyStr.strip s.
Proof.
  intros Hpre Hpost. unfold PyStr.strip. rewrite lstrip_space_app by done.
  destruct (lstrip_cases s) as [[Hs ->]|(c & s' & _ & _ & ->)].
  - rewrite lstrip_space_app by done. by rewrite lstrip_all_space.
  - by apply rstrip_app_space.
Qed.

Lemma rstrip_idemp s : PyStr.rstrip (PyStr.rstrip s) = PyStr.rstrip s.
Proof.
  induction s as [|c s IH]; simpl; [done|].
  destruct (PyStr.rstrip s) as [|c' r] eqn:Hr.
  - destruct (PyStr.is_space c) eqn:Hc; simpl; [done|]. by rewrite Hc.
  - change (PyStr.rstrip (String c (String c' r)))
      with (match PyStr.rstrip (String c' r) with
            | EmptyString =>
                if PyStr.is_space c then EmptyString else String c EmptyString
            | r0 => String c r0
            end).
    by rewrite IH.
Qed.

Lemma lstrip_rstrip c s :
  PyStr.is_space c = false ->
  PyStr.lstrip (PyStr.rstrip (String c s)) = PyStr.rstrip (String c s).
Proof.
  intros Hc. simpl. destruct (PyStr.rstrip s); rewrite ?Hc; simpl; by rewrite Hc.
Qed.

Lemma strip_idemp s : PyStr.strip (PyStr.strip s) = PyStr.strip s.
Proof.
  unfold PyStr.strip.
  destruct (lstrip_cases s) as [[_ ->]|(c & s' & -> & Hc & _)]; [done|].
  by rewrite lstrip_rstrip, rstrip_idemp.
Qed.

Lemma norm_eq s : _norm s = PyStr.lower (PyStr.strip s).
Proof. apply strip_lower. Qed.

(** ** The normalizers on text and on dicts *)

(** The text normalizers and the deduplication key do not see ASCII case
    or surrounding whitespace. *)
Theorem text_is_read_modulo_case_and_padding (pre s post t : string) :
  all_space pre = true -> all_space post = true ->
  PyStr.lower s = PyStr.lower t ->
  let padded := String.append pre (String.append s post) in
  _normalize_answer (VStr padded) = _normalize_answer (VStr t) /\
  _parse_guess_result (VStr padded) = _parse_guess_result (VStr t) /\
  _norm padded = _norm t.
Proof.
  intros Hpre Hpost Hcase padded.
  assert (PyStr.lower (PyStr.strip padded) = PyStr.lower (PyStr.strip t)) as Hkey.
  { unfold padded. rewrite strip_padding by done.
    by rewrite <- !strip_lower, Hcase. }
  split; [|split].
  - cbn [_normalize_answer]. by rewrite Hkey.
  - unfold _parse_guess_result. by rewrite Hkey.
  - by rewrite !norm_eq.
Qed.

Lemma text_is_read_modulo_case_and_padding_witness :
  _normalize_answer (VStr "  YeS
") = _normalize_answer (VStr "yes") /\
  _parse_guess_result (VStr "  YeS
") = _parse_guess_result (VStr "yes") /\
  _norm "  YeS
" = _norm "yes".
Proof.
  exact (text_is_read_modulo_case_and_padding "  " "YeS" "
" "yes" eq_refl eq_refl eq_refl).
Defined.

Lemma first_present_ext keys (d d' : list (string * PyVal)) :
  (forall k, k ∈ keys -> dict_get k d = dict_get k d') ->
  Ref.first_present keys d = Ref.first_present keys d'.
Proof.
  induction keys as [|key keys IH]; intros Hd; simpl; [done|].
  rewrite <- (Hd key) by (by left).
  rewrite IH; [done|]. intros k Hk. apply Hd. by right.
Qed.

(** What the normalizers make of a dict depends only on what it holds
    under their own keys: other keys and the order of the entries do not
    matter. *)
Theorem dict_is_read_through_its_known_keys (d d' : list (string * PyVal)) :
  (forall k, k ∈ answer_keys -> dict_get k d = dict_get k d') ->
  (forall k, k ∈ guess_result_keys -> dict_get k d = dict_get k d') ->
  _normalize_answer (VDict d) = _normalize_answer (VDict d') /\
  _parse_guess_result (VDict d) = _parse_guess_result (VDict d').
Proof.
  intros Ha Hg. split.
  - by rewrite !normalize_answer_dict, (first_present_ext _ _ _ Ha).
  - unfold _parse_guess_result.
    by rewrite !for_key_in_first_present, (first_present_ext _ _ _ Hg).
Qed.

Lemma dict_is_read_through_its_known_keys_witness :
  _normalize_answer
    (VDict [("note", VInt 1); ("status", VStr "no"); ("answer", VStr "yes")])
  = _normalize_answer (VDict [("answer", VStr "yes"); ("status", VStr "no")]) /\
  _parse_guess_result
    (VDict [("note", VInt 1); ("status", VStr "no"); ("answer", VStr "yes")])
  = _parse_guess_result (VDict [("answer", VStr "yes"); ("status", VStr "no")]).
Proof.
  apply dict_is_read_through_its_known_keys; intros k Hk;
    repeat (apply elem_of_cons in Hk as [->|Hk]; [reflexivity|]);
    by apply elem_of_nil in Hk.
Defined.

Ltac split_membership :=
  repeat match goal with
         | H : _ ∈ [] |- _ => by apply elem_of_nil in H
         | H : _ ∈ _ :: _ |- _ => apply elem_of_cons in H as [?|H]; simplify_eq
         end.

(** On a value that is not a dict the two normalizers agree as far as
    their vocabularies overlap: what reads as the answer "no" never reads
    as a correct guess, and what reads as the answer "yes" reads as a
    correct guess, the text "y" apart, which only the answer normalizer
    knows. *)
Theorem answer_and_verdict_vocabularies (v : PyVal) :
  (forall d, v <> VDict d) ->
  (_normalize_answer v = "no" -> _parse_guess_result v = false) /\
  (_normalize_answer v = "yes" ->
   _parse_guess_result v = true \/
   exists s, v = VStr s /\ PyStr.lower (PyStr.strip s) = "y").
Proof.
  intros Hv.
  destruct v as [|b|n|s|l|d];
    [by split | destruct b; split; (done || by left) | by split | | by split
    | by destruct (Hv d)].
  unfold _parse_guess_result. cbn [_normalize_answer].
  assert (forall k : string,
    ((if PyStr.in_tuple k ["yes"; "y"; "true"; "1"] then "yes"
      else if PyStr.in_tuple k ["no"; "n"; "false"; "0"] then "no"
      else if PyStr.in_tuple k ["maybe"; "unsure"; "unknown"; "not sure"; "idk"]
      then "maybe" else "maybe") = "no" ->
     PyStr.in_tuple k ["yes"; "correct"; "true"; "right"; "1"; "match"] = false) /\
    ((if PyStr.in_tuple k ["yes"; "y"; "true"; "1"] then "yes"
      else if PyStr.in_tuple k ["no"; "n"; "false"; "0"] then "no"
      else if PyStr.in_tuple k ["maybe"; "unsure"; "unknown"; "not sure"; "idk"]
      then "maybe" else "maybe") = "yes" ->
     PyStr.in_tuple k ["yes"; "correct"; "true"; "right"; "1"; "match"] = true \/
     k = "y")) as Hk.
  { intros k. rewrite !in_tuple_elem_of.
    destruct (decide (k = "y")) as [->|Hy]; [split; [done|by right]|].
    repeat case_bool_decide; split; try done; try (intros _; by left);
      intros _; exfalso; split_membership;
      match goal with
      | H : ¬ _ |- _ => apply H; by apply (bool_decide_unpack _)
      end. }
  destruct (Hk (PyStr.lower (PyStr.strip s))) as [Hno Hyes].
  split; [done|]. intros [?|?]%Hyes; [by left|right; by exists s].
Qed.

Lemma answer_and_verdict_vocabularies_witness :
  _normalize_answer (VStr " N ") = "no" /\
  _parse_guess_result (VStr " N ") = false.
Proof.
  split; [reflexivity|].
  apply (answer_and_verdict_vocabularies (VStr " N ")); [discriminate|reflexivity].
Defined.

(** ** What the agent is shown *)

Section GameExtras.
Context {W : Type} `{Collaborators W}.

Lemma agent_calls_app evs1 evs2 :
  agent_calls (evs1 ++ evs2) = agent_calls evs1 ++ agent_calls evs2.
Proof. apply omap_app. Qed.

Lemma agent_calls_round st r :
  agent_calls (round_events st r)
  = (ask_obs st, r_ask r) :: (pair (guess_obs st r) <$> r_tries r).
Proof.
  unfold round_events.
  change (agent_calls ([?a; ?b] ++ ?l)) with ((ask_obs st, r_ask r) :: agent_calls l).
  f_equal. rewrite agent_calls_app.
  change (agent_calls [EvValidateGuess _ _]) with (@nil (Observation * option string)).
  rewrite app_nil_r. induction (r_tries r) as [|t l IH]; [done|].
  change (agent_calls (map ?f (t :: l)))
    with ((guess_obs st r, t) :: agent_calls (map f l)).
  by rewrite IH.
Qed.

Lemma agent_calls_game_cons st r rs :
  agent_calls (game_events st (r :: rs))
  = (ask_obs st, r_ask r) :: (pair (guess_obs st r) <$> r_tries r)
    ++ agent_calls (game_events (round_next st r) rs).
Proof.
  change (game_events st (r :: rs))
    with (round_events st r ++ game_events (round_next st r) rs).
  by rewrite agent_calls_app, agent_calls_round.
Qed.

Lemma canonical_answer r : canonical (r_answer r).
Proof.
  unfold canonical, r_answer.
  destruct (normalize_answer_canonical (r_raw_ans r)) as [[] ->]; simpl.
  - by left.
  - right. by left.
  - right. right. by left.
Qed.

Lemma state_ok_next st r : state_ok st -> state_ok (round_next st r).
Proof.
  intros (Ha & Hg & Hc). unfold state_ok. simpl. rewrite !length_app. simpl.
  split; [lia|]. split; [lia|].
  apply Forall_app. split; [done|]. constructor; [apply canonical_answer|done].
Qed.

Lemma well_formed_round st r :
  state_ok st -> well_formed (ask_obs st) /\ well_formed (guess_obs st r).
Proof.
  intros (Ha & Hg & Hc). unfold well_formed. simpl. rewrite !length_app. simpl.
  split.
  - split; [done|]. split; [done|]. split; [done|]. by left.
  - split; [done|]. split; [lia|]. split; [|right; split; [done|lia]].
    apply Forall_app. split; [done|]. constructor; [apply canonical_answer|done].
Qed.

Lemma well_formed_game rs : forall st,
  state_ok st ->
  Forall (fun c => well_formed c.1 /\
                   (length (questions c.1) <= length (g_questions st) + length rs)%nat)
         (agent_calls (game_events st rs)).
Proof.
  induction rs as [|r rs IH]; intros st Hst; [by constructor|].
  rewrite agent_calls_game_cons.
  destruct (well_formed_round st r Hst) as [Hask Hguess].
  constructor; [|apply Forall_app; split].
  - split; [done|]. simpl. lia.
  - apply Forall_fmap, Forall_forall. intros t _. split; [done|].
    simpl. rewrite length_app. simpl. lia.
  - eapply Forall_impl; [apply (IH _ (state_ok_next st r Hst))|].
    intros c [Hwf Hlen]. split; [done|].
    simpl in *. rewrite length_app in Hlen. simpl in Hlen. lia.
Qed.

(** Every Observation handed to the agent is well formed: its two answer
    fields are the same list, there is one canonical answer per question,
    on an ASK turn as many guesses as questions and on a GUESS turn one
    guess fewer, and never more than [max_rounds] questions. *)
Theorem observations_are_well_formed (max_rounds : Z) (w : W) :
  Forall (fun c => well_formed c.1 /\
                   (length (questions c.1) <= Z.to_nat max_rounds)%nat)
         (agent_calls (events (run_single_game max_rounds w))).
Proof.
  destruct (run_single_game_rounds max_rounds w) as (rs & -> & Hlen & _).
  change (agent_calls (EvNewValidator :: ?e)) with (agent_calls e).
  eapply Forall_impl.
  - apply (well_formed_game rs fresh_game). by repeat split.
  - intros c [Hwf Hq]. split; [done|]. simpl in Hq. lia.
Qed.

#[local] Instance history_grows_preorder : PreOrder history_grows.
Proof.
  split.
  - by intros o.
  - intros o1 o2 o3 (? & ? & ?) (? & ? & ?). repeat split; by etrans.
Qed.

Lemma history_grows_round st r :
  history_grows (ask_obs st) (guess_obs st r) /\
  history_grows (guess_obs st r) (ask_obs (round_next st r)).
Proof.
  unfold history_grows. simpl. repeat split; try done; by apply prefix_app_r.
Qed.

Lemma history_grows_from st rs :
  Forall (fun c => history_grows (ask_obs st) c.1)
         (agent_calls (game_events st rs)).
Proof.
  revert st. induction rs as [|r rs IH]; intros st; [by constructor|].
  rewrite agent_calls_game_cons.
  destruct (history_grows_round st r) as [Hag Hga].
  constructor; [done|]. apply Forall_app. split.
  - apply Forall_fmap, Forall_forall. by intros t _.
  - eapply Forall_impl; [apply IH|]. intros c Hc. simpl in *.
    by etrans; [|apply Hc]; etrans.
Qed.

Lemma history_grows_sorted st rs :
  StronglySorted history_grows (fst <$> agent_calls (game_events st rs)).
Proof.
  revert st. induction rs as [|r rs IH]; intros st; [constructor|].
  rewrite agent_calls_game_cons.
  destruct (history_grows_round st r) as [Hag Hga].
  pose proof (history_grows_from (round_next st r) rs) as Hrest.
  rewrite fmap_cons, fmap_app, <- list_fmap_compose.
  apply StronglySorted_cons. split.
  - apply Forall_app. split.
    + apply Forall_fmap, Forall_forall. by intros t _.
    + apply Forall_fmap. eapply Forall_impl; [apply Hrest|].
      intros c Hc. simpl in *. by etrans; [|apply Hc]; etrans.
  - apply StronglySorted_app. split; [|split; [|apply IH]].
    + intros o1 o2 [t [-> _]]%list_elem_of_fmap [c [-> Hc]]%list_elem_of_fmap.
      rewrite Forall_forall in Hrest. simpl. by etrans; [|apply (Hrest c Hc)].
    + induction (r_tries r) as [|t l IHl]; [constructor|].
      apply StronglySorted_cons. split; [|done].
      apply Forall_fmap, Forall_forall. by intros t' _.
Qed.

(** Histories only grow: of two Observations handed to the agent during a
    game, the questions, answers and guesses of the earlier are initial
    parts of those of the later. *)
Theorem histories_only_grow (max_rounds : Z) (w : W) :
  StronglySorted history_grows
    (fst <$> agent_calls (events (run_single_game max_rounds w))).
Proof.
  destruct (run_single_game_rounds max_rounds w) as (rs & -> & _).
  apply history_grows_sorted.
Qed.

End GameExtras.

(** ** How many calls a game makes, and with what *)

Section GameCalls.
Context {W : Type} `{Collaborators W}.

(** With nothing accepted yet there is nothing to duplicate, so the GUESS
    turn makes a single call. *)
Lemma dedup_ok_first_round tries : dedup_ok ∅ tries -> length tries = 1%nat.
Proof.
  intros (Hlen & Hrej & _).
  destruct tries as [|t [|t' tries]]; simpl in *; [lia|done|].
  specialize (Hrej 0%nat t eq_refl ltac:(lia)). set_solver.
Qed.

Lemma agent_calls_bounds rs : forall st,
  rounds_dedup_ok st rs ->
  (2 * length rs <= length (agent_calls (game_events st rs)) <= 7 * length rs)%nat.
Proof.
  induction rs as [|r rs IH]; intros st; [simpl; lia|].
  intros [((Hlo & Hhi) & _) Hoks]. specialize (IH _ Hoks).
  rewrite agent_calls_game_cons. simpl. rewrite length_app, length_fmap.
  unfold retry_bound in Hhi. lia.
Qed.

(** A game makes as many question validations as guess validations, one
    pair per round played and at most [max_rounds] of them (at least one
    when [max_rounds >= 1]); with [n] rounds played the agent is called
    at least [2 n] and at most [7 n - 5] times, the first round never
    needing a retry. *)
Theorem calls_per_game (max_rounds : Z) (w : W) :
  let evs := events (run_single_game max_rounds w) in
  let n := length (validated_guesses evs) in
  length (validated_questions evs) = n /\
  (n <= Z.to_nat max_rounds)%nat /\
  (1 <= max_rounds -> (1 <= n)%nat) /\
  (2 * n <= length (agent_calls evs) <= 7 * n - 5)%nat.
Proof.
  destruct (run_single_game_rounds max_rounds w)
    as (rs & Hev & Hlen & Hoks & _ & Hrec).
  cbv zeta. rewrite Hev.
  change (validated_guesses (EvNewValidator :: ?e)) with (validated_guesses e).
  change (validated_questions (EvNewValidator :: ?e)) with (validated_questions e).
  change (agent_calls (EvNewValidator :: ?e)) with (agent_calls e).
  rewrite validated_guesses_game, validated_questions_game, !length_fmap.
  split; [done|]. split; [done|]. split.
  - intros Hmax. destruct (won _).
    + destruct Hrec as (rs0 & r' & -> & _). rewrite length_app. simpl. lia.
    + destruct Hrec as (-> & _). lia.
  - destruct rs as [|r rs]; [simpl; lia|].
    destruct Hoks as [Hfirst Hoks].
    apply dedup_ok_first_round in Hfirst.
    pose proof (agent_calls_bounds rs _ Hoks).
    rewrite agent_calls_game_cons. simpl.
    rewrite length_app, length_fmap, Hfirst. lia.
Qed.

Lemma agent_text_stripped r : PyStr.strip (agent_text r) = agent_text r.
Proof. apply strip_idemp. Qed.

Lemma question_text_stripped r : PyStr.strip (question_text r) = question_text r.
Proof.
  unfold question_text. destruct (PyStr.truthy (agent_text r)); simpl.
  - apply agent_text_stripped.
  - reflexivity.
Qed.

Lemma guess_text_stripped r : PyStr.strip (guess_text r) = guess_text r.
Proof.
  unfold guess_text, PyStr.or_else. destruct (PyStr.truthy (agent_text r)).
  - apply agent_text_stripped.
  - reflexivity.
Qed.

(** Whatever the agent returns, the questions and guesses put to the
    oracle carry no leading or trailing whitespace, and neither do the
    entries of the histories shown to the agent. *)
Theorem oracle_gets_trimmed_text (max_rounds : Z) (w : W) :
  let evs := events (run_single_game max_rounds w) in
  Forall (fun q => PyStr.strip q = q) (validated_questions evs) /\
  Forall (fun g => PyStr.strip g = g) (validated_guesses evs) /\
  Forall (fun c => Forall (fun q => PyStr.strip q = q) (questions c.1) /\
                   Forall (fun g => PyStr.strip g = g) (question_guesses c.1))
         (agent_calls evs).
Proof.
  destruct (run_single_game_rounds max_rounds w) as (rs & Hev & _).
  cbv zeta. rewrite Hev.
  change (validated_guesses (EvNewValidator :: ?e)) with (validated_guesses e).
  change (validated_questions (EvNewValidator :: ?e)) with (validated_questions e).
  change (agent_calls (EvNewValidator :: ?e)) with (agent_calls e).
  rewrite validated_guesses_game, validated_questions_game.
  assert (Forall (fun q => PyStr.strip q = q) (r_question <$> rs)) as Hq.
  { apply Forall_fmap, Forall_forall. intros r _. apply question_text_stripped. }
  assert (Forall (fun g => PyStr.strip g = g) (r_guess <$> rs)) as Hg.
  { apply Forall_fmap, Forall_forall. intros r _. apply guess_text_stripped. }
  split; [done|]. split; [done|].
  assert (forall rs st,
    Forall (fun q => PyStr.strip q = q) (g_questions st) ->
    Forall (fun g => PyStr.strip g = g) (g_guesses st) ->
    Forall (fun c => Forall (fun q => PyStr.strip q = q) (questions c.1) /\
                     Forall (fun g => PyStr.strip g = g) (question_guesses c.1))
           (agent_calls (game_events st rs))) as Hall.
  { clear. induction rs as [|r rs IH]; intros st Hq Hg; [by constructor|].
    rewrite agent_calls_game_cons.
    assert (Forall (fun q => PyStr.strip q = q) (g_questions st ++ [r_question r]))
      as Hq'.
    { apply Forall_app. split; [done|].
      constructor; [apply question_text_stripped|done]. }
    constructor; [done|]. apply Forall_app. split.
    - apply Forall_fmap, Forall_forall. by intros t _.
    - apply IH; simpl; [done|]. apply Forall_app. split; [done|].
      constructor; [apply guess_text_stripped|done]. }
  by apply Hall.
Qed.

Lemma last_game_events st rs r :
  last (game_events st (rs ++ [r]))
  = Some (EvValidateGuess (r_guess r) (r_raw_res r)).
Proof.
  rewrite game_events_app.
  change (game_events ?s [r]) with (round_events s r ++ []).
  rewrite app_nil_r. unfold round_events. by rewrite !app_assoc, last_snoc.
Qed.

(** A game of at least one round begins, after the construction of its
    validator, with an ASK call on an empty history, whatever the world it
    starts in, and its last call is the validation of the final guess it
    reports, with the verdict it reports: nothing happens after a win. *)
Theorem game_begins_fresh_and_ends_on_its_verdict (max_rounds : Z) (w : W) :
  1 <= max_rounds ->
  let run := run_single_game max_rounds w in
  (exists ret rest,
     events run
     = EvNewValidator :: EvAgent (mkObs ASK [] [] [] []) ret :: rest) /\
  (exists raw,
     last (events run) = Some (EvValidateGuess (final_guess (result run)) raw) /\
     _parse_guess_result raw = won (result run)).
Proof.
  intros Hmax. cbv zeta.
  destruct (run_single_game_rounds max_rounds w)
    as (rs & Hev & Hlen & _ & _ & Hrec).
  rewrite Hev.
  assert (exists rs0 r', rs = rs0 ++ [r'] /\
            final_guess (result (run_single_game max_rounds w)) = r_guess r' /\
            r_correct r' = won (result (run_single_game max_rounds w)))
    as (rs0 & r' & -> & -> & <-).
  { destruct (won _).
    - destruct Hrec as (rs0 & r' & -> & _ & Hc & Hg & _). by exists rs0, r'.
    - destruct Hrec as (Hn & Hinc & _ & Hg).
      destruct (last rs) as [r'|] eqn:Hl.
      + apply last_Some in Hl as [rs0 ->]. exists rs0, r'.
        split; [done|]. split.
        * rewrite Hg, fmap_app. apply last_guess_last.
          change (r_guess <$> [r']) with [r_guess r']. by rewrite last_snoc.
        * apply Forall_app in Hinc as [_ Hinc]. by inversion Hinc.
      + apply last_None in Hl. subst rs. simpl in Hn. lia. }
  split.
  - destruct rs0 as [|r0 rs0]; simpl; eauto.
  - exists (r_raw_res r'). split; [|done].
    rewrite last_cons, last_game_events. done.
Qed.

End GameCalls.

Lemma game_begins_fresh_and_ends_on_its_verdict_witness :
  1 <= 3 /\
  last (events (@run_single_game _ Stub.lion_oracle 3 Stub.zebra_script))
  = Some (EvValidateGuess "zebra" (VBool false)).
Proof.
  split; [lia|].
  destruct (proj2 (@game_begins_fresh_and_ends_on_its_verdict
                     _ Stub.lion_oracle 3 Stub.zebra_script ltac:(lia)))
    as (raw & Hlast & _).
  rewrite Hlast. vm_compute in Hlast. by injection Hlast as <-.
Defined.


(** ** The rates at the ends of the scale *)

Lemma div_eucl_shiftl_same p :
  Z.div_eucl (Z.shiftl (Z.pos p) 53) (Z.pos p) = (2 ^ 53, 0).
Proof.
  rewrite Z.shiftl_mul_pow2 by lia.
  pose proof (Z.div_eucl_eq (Z.pos p * 2 ^ 53) (Z.pos p) ltac:(lia)) as Heq.
  pose proof (Z.mod_pos_bound (Z.pos p * 2 ^ 53) (Z.pos p) ltac:(lia)) as Hb.
  unfold Z.modulo in Hb.
  destruct (Z.div_eucl (Z.pos p * 2 ^ 53) (Z.pos p)) as [q r].
  assert (r = 0 /\ q = 2 ^ 53) as [-> ->]; [|done].
  assert (Z.pos p * (2 ^ 53 - q) = r) as Hr by lia.
  assert (2 ^ 53 - q = 0) by nia. split; nia.
Qed.

Lemma SFdiv_core_same p :
  SFdiv_core_binary prec emax (Z.pos p) 0 (Z.pos p) 0 = (2 ^ 53, -53, loc_Exact).
Proof.
  unfold SFdiv_core_binary.
  generalize (Zdigits2 (Z.pos p)). intros d.
  assert (IntDef.Z.sub (IntDef.Z.add d 0) (IntDef.Z.add d 0) = 0) as ->.
  { rewrite Z.add_0_r. apply Z.sub_diag. }
  change (IntDef.Z.min (fexp prec emax 0) (IntDef.Z.sub 0 0)) with (-53).
  change (IntDef.Z.sub (IntDef.Z.sub 0 0) (-53)) with 53.
  cbv zeta. cbv iota.
  rewrite (div_eucl_shiftl_same p
           : IntDef.Z.div_eucl (IntDef.Z.shiftl (Z.pos p) 53) (Z.pos p) = _).
  unfold new_location. destruct (Z.even (Z.pos p)); reflexivity.
Qed.

(** [n / n] is exactly one, whatever the size of [n]. *)
Lemma truediv_same n : 1 <= n -> PyFloat.truediv n n = 1%float.
Proof.
  destruct n as [|p|p]; [lia| |lia]. intros _.
  unfold PyFloat.truediv, PyFloat.of_int, SFdiv. rewrite SFdiv_core_same.
  reflexivity.
Qed.

Lemma format_pct1_all n : 1 <= n -> PyFloat.format_pct1 (PyFloat.truediv n n) = "100.0%".
Proof. intros Hn. by rewrite truediv_same. Qed.

Lemma format_pct1_none n : 1 <= n -> PyFloat.format_pct1 (PyFloat.truediv 0 n) = "0.0%".
Proof. destruct n as [|p|p]; [lia| |lia]. reflexivity. Qed.

Lemma format_pct1_negative n : n < 0 -> PyFloat.format_pct1 (PyFloat.truediv 0 n) = "-0.0%".
Proof. destruct n as [|p|p]; [lia|lia|]. reflexivity. Qed.

Section DriverExtras.
Context {W : Type} `{Collaborators W}.

(** With a negative number of games [main] plays none and still prints a
    summary: no wins out of [N], a rate of minus zero. *)
Theorem main_negative_count (N max_rounds : Z) (w : W) :
  N < 0 ->
  main N max_rounds w
  = (Returned, w, [Print Rule; Print (Summary 0 N "-0.0%"); Print Rule]).
Proof.
  intros HN. rewrite main_spec. cbv zeta.
  replace (Z.to_nat N) with 0%nat by lia.
  destruct (Z.eqb_spec N 0) as [->|_]; [lia|].
  cbn [play_games fst snd fmap list_fmap games_output app].
  change (count_won []) with 0. by rewrite format_pct1_negative.
Qed.

(** When no game is won the summary reads [0/N wins (0.0%)], and when
    all are won [N/N wins (100.0%)], for every [N >= 1] however large. *)
Theorem main_unanimous_summary (N max_rounds : Z) (w : W) :
  1 <= N ->
  let records := (play_games (Z.to_nat N) max_rounds w).1.*1 in
  (Forall (fun r => won r = false) records ->
   printed (main N max_rounds w).2
   = game_lines 1 records ++ [Rule; Summary 0 N "0.0%"; Rule]) /\
  (Forall (fun r => won r = true) records ->
   printed (main N max_rounds w).2
   = game_lines 1 records ++ [Rule; Summary N N "100.0%"; Rule]).
Proof.
  intros HN records.
  destruct (main_report N max_rounds w ltac:(lia)) as (_ & _ & ->).
  fold records.
  assert (length records = Z.to_nat N) as Hlen.
  { unfold records. by rewrite length_fmap, play_games_length. }
  split; intros Hall.
  - assert (count_won records = 0) as ->.
    { unfold count_won. clear Hlen. induction Hall as [|r l Hr _ IH]; [done|].
      simpl. by rewrite Hr. }
    by rewrite format_pct1_none.
  - assert (count_won records = N) as ->.
    { unfold count_won. replace N with (Z.of_nat (length records)) by lia.
      clear Hlen. induction Hall as [|r l Hr _ IH]; [done|].
      simpl. rewrite Hr. simpl. lia. }
    by rewrite format_pct1_all.
Qed.

Lemma run_single_game_empty_range max_rounds (w : W) :
  max_rounds <= 0 ->
  run_single_game max_rounds w
  = (mkRecord false "" max_rounds (target_word (ValidatorModel w)),
     ValidatorModel w, [EvNewValidator]).
Proof.
  intros Hmax. unfold run_single_game.
  replace (Z.to_nat max_rounds) with 0%nat by lia. reflexivity.
Qed.

Lemma play_games_empty_range n max_rounds : forall w : W,
  max_rounds <= 0 ->
  Forall (fun g => g.2 = [EvNewValidator] /\ won g.1 = false /\
                   final_guess g.1 = "" /\ rounds_used g.1 = max_rounds)
         (play_games n max_rounds w).1.
Proof.
  induction n as [|n IH]; intros w Hmax; [by constructor|].
  cbn [play_games]. rewrite run_single_game_empty_range by done.
  specialize (IH (ValidatorModel w) Hmax).
  destruct (play_games n max_rounds (ValidatorModel w)) as [games w2].
  by constructor.
Qed.

(** With [max_rounds <= 0] and [N >= 1], [main] still runs its [N] games:
    each constructs a validator and nothing else, and is reported as a
    loss in [max_rounds] rounds with an empty final guess; the summary is
    [0/N wins (0.0%)]. *)
Theorem main_without_rounds (N max_rounds : Z) (w : W) :
  1 <= N -> max_rounds <= 0 ->
  let games := (play_games (Z.to_nat N) max_rounds w).1 in
  length games = Z.to_nat N /\
  Forall (fun g => g.2 = [EvNewValidator] /\ won g.1 = false /\
                   final_guess g.1 = "" /\ rounds_used g.1 = max_rounds) games /\
  printed (main N max_rounds w).2
  = game_lines 1 games.*1 ++ [Rule; Summary 0 N "0.0%"; Rule].
Proof.
  intros HN Hmax games.
  pose proof (play_games_empty_range (Z.to_nat N) max_rounds w Hmax) as Hall.
  fold games in Hall.
  split; [apply play_games_length|]. split; [done|].
  destruct (main_report N max_rounds w ltac:(lia)) as (_ & _ & ->).
  fold games.
  assert (count_won games.*1 = 0) as ->.
  { unfold count_won. induction Hall as [|g l (_ & Hw & _) _ IH]; [done|].
    simpl. by rewrite Hw. }
  by rewrite format_pct1_none.
Qed.

End DriverExtras.

Lemma main_negative_count_witness :
  -3 < 0 /\
  @main _ Stub.selftest (-3) 5 tt
  = (Returned, tt, [Print Rule; Print (Summary 0 (-3) "-0.0%"); Print Rule]).
Proof.
  split; [lia|]. exact (@main_negative_count _ Stub.selftest (-3) 5 tt ltac:(lia)).
Defined.

Lemma main_unanimous_summary_witness :
  1 <= 2 /\
  printed (@main _ Stub.selftest 2 5 tt).2
  = [GameLine 1 "WIN" 1 "lion" (Some (VStr "lion"));
     GameLine 2 "WIN" 1 "lion" (Some (VStr "lion"));
     Rule; Summary 2 2 "100.0%"; Rule].
Proof.
  split; [lia|].
  apply (proj2 (@main_unanimous_summary _ Stub.selftest 2 5 tt ltac:(lia))).
  vm_compute. by repeat constructor.
Defined.

Lemma main_without_rounds_witness :
  (1 <= 2 /\ -1 <= 0) /\
  printed (@main _ Stub.selftest 2 (-1) tt).2
  = [GameLine 1 "LOSS" (-1) "" (Some (VStr "lion"));
     GameLine 2 "LOSS" (-1) "" (Some (VStr "lion"));
     Rule; Summary 0 2 "0.0%"; Rule].
Proof.
  split; [lia|].
  exact (proj2 (proj2 (@main_without_rounds _ Stub.selftest 2 (-1) tt
                         ltac:(lia) ltac:(lia)))).
Defined.

(** ** The self-test's stub collaborators *)

Lemma selftest_game max_rounds :
  1 <= max_rounds ->
  @run_single_game _ Stub.selftest max_rounds tt
  = (mkRecord true "lion" 1 (VStr "lion"), tt,
     [EvNewValidator;
      EvAgent (mkObs ASK [] [] [] []) (Some "Is it an animal?");
      EvValidateQuestion "Is it an animal?" (VStr "yes");
      EvAgent (mkObs GUESS ["Is it an animal?"] ["yes"] [] ["yes"]) (Some "lion");
      EvValidateGuess "lion" (VBool true)]).
Proof.
  intros Hmax. unfold run_single_game.
  destruct (Z.to_nat max_rounds) as [|n] eqn:Hn; [lia|]. reflexivity.
Qed.

Lemma selftest_games n max_rounds :
  1 <= max_rounds ->
  (@play_games _ Stub.selftest n max_rounds tt).1.*1
  = replicate n (mkRecord true "lion" 1 (VStr "lion")) /\
  length (concat (@play_games _ Stub.selftest n max_rounds tt).1.*2) = (5 * n)%nat.
Proof.
  intros Hmax. induction n as [|n [IHr IHc]]; [done|].
  cbn [play_games]. rewrite selftest_game by done.
  destruct (@play_games _ Stub.selftest n max_rounds tt) as [games []].
  cbn [fst snd fmap list_fmap concat replicate] in *.
  rewrite IHr, length_app, IHc. split; [done|]. simpl. lia.
Qed.

Lemma count_won_replicate n r :
  won r = true -> count_won (replicate n r) = Z.of_nat n.
Proof.
  intros Hr. induction n as [|n IH]; [done|].
  change (replicate (S n) r) with (r :: replicate n r).
  rewrite count_won_cons, Hr, IH. simpl Z.b2z. lia.
Qed.

(** The self-test's run: with its stub validator and agent, for every
    [N >= 1] and [max_rounds >= 1] each game is won in its first round with
    the guess "lion", on two agent calls and two oracle calls, and [main]
    prints [N] WIN lines and the summary [N/N wins (100.0%)]. *)
Theorem selftest_run (N max_rounds : Z) :
  1 <= N -> 1 <= max_rounds ->
  let run := @main _ Stub.selftest N max_rounds tt in
  run.1.1 = Returned /\
  printed run.2
  = game_lines 1 (replicate (Z.to_nat N) (mkRecord true "lion" 1 (VStr "lion")))
    ++ [Rule; Summary N N "100.0%"; Rule] /\
  length (calls_made run.2) = (5 * Z.to_nat N)%nat.
Proof.
  intros HN Hmax run.
  destruct (selftest_games (Z.to_nat N) max_rounds Hmax) as [Hrecs Hcalls].
  destruct (@main_report _ Stub.selftest N max_rounds tt ltac:(lia))
    as (Hrun & _ & Hprinted).
  fold run in Hrun, Hprinted.
  split; [by rewrite Hrun|]. split.
  - rewrite Hprinted, Hrecs, count_won_replicate by done.
    replace (Z.of_nat (Z.to_nat N)) with N by lia.
    by rewrite format_pct1_all.
  - rewrite Hrun. cbn [snd].
    rewrite calls_made_app, calls_made_games_output, length_app, Hcalls.
    simpl. lia.
Qed.

Lemma selftest_run_witness :
  (1 <= 3 /\ 1 <= 5) /\
  printed (@main _ Stub.selftest 3 5 tt).2
  = [GameLine 1 "WIN" 1 "lion" (Some (VStr "lion"));
     GameLine 2 "WIN" 1 "lion" (Some (VStr "lion"));
     GameLine 3 "WIN" 1 "lion" (Some (VStr "lion"));
     Rule; Summary 3 3 "100.0%"; Rule].
Proof.
  split; [lia|].
  exact (proj1 (proj2 (selftest_run 3 5 ltac:(lia) ltac:(lia)))).
Defined.

(** ** Probing the validator for its target label *)

Section TargetProps.
Import Target.
Context {W : Type} `{Validator W}.
Local Set Warnings "-clear-no-such-hyp".

Lemma names_accessed_app evs1 evs2 :
  names_accessed (evs1 ++ evs2) = names_accessed evs1 ++ names_accessed evs2.
Proof. apply omap_app. Qed.

Lemma body_ok_getattr name : body_ok name (do_getattr name).
Proof.
  intros w. unfold do_getattr. destruct (getattr name w) as [r w1]. simpl.
  split; [set_solver|]. split; [lia|].
  intros e -> _. by exists [], (Getattr name (inr e)).
Qed.

Lemma body_ok_getattr_call name : body_ok name (do_getattr_call name).
Proof.
  intros w. unfold do_getattr_call.
  destruct (getattr name w) as [[[v|f]|e] w1]; simpl.
  - split; [set_solver|]. split; [lia|]. by intros e [= <-].
  - destruct (call f w1) as [r2 w2]. simpl.
    split; [set_solver|]. split; [lia|].
    intros e -> _. by exists [Getattr name (inl (Callable f))], (CallObj f (inr e)).
  - split; [set_solver|]. split; [lia|].
    intros e' [= ->] _. by exists [], (Getattr name (inr e')).
Qed.

Lemma raises_ok_step name names m rest :
  name ∉ names -> body_ok name m -> raises_ok names rest ->
  raises_ok (name :: names) (if_hasattr name m rest).
Proof.
  intros Hfresh Hm Hrest w. unfold if_hasattr, hasattr, try_return.
  destruct (getattr name w) as [[o|e0] w1].
  - destruct (Hm w1) as (Hmn & _ & Hme).
    destruct (m w1) as [[[v|e] w2] e2]; simpl in *.
    + split; [set_solver|]. by intros e.
    + destruct (is_Exception e) eqn:He.
      * destruct (Hrest w2) as (Hrn & Hre).
        destruct (rest w2) as [[r3 w3] e3]. simpl in *.
        split; [rewrite !names_accessed_app in *; set_solver|].
        intros e' ->. destruct (Hre e' eq_refl) as (Hattr & evs0 & a & -> & Ha & Hfirst).
        split; [done|].
        exists (Getattr name (inl o) :: e2 ++ evs0), a.
        split; [simpl; by rewrite app_assoc|]. split; [done|].
        intros (n & -> & Hn)%Hfirst. exists n. split; [done|].
        rewrite names_accessed_app in Hrn.
        change (names_accessed (Getattr name (inl o) :: ?l))
          with (name :: names_accessed l).
        rewrite names_accessed_app.
        assert (n ∈ names) by set_solver. set_solver.
      * split; [set_solver|]. intros e' [= <-].
        destruct (Hme e eq_refl He) as (evs0 & a & -> & Ha).
        split; [by destruct e|].
        exists (Getattr name (inl o) :: evs0), a. split; [done|]. split; [done|].
        by rewrite He.
  - destruct (is_AttributeError e0) eqn:He0.
    + destruct (Hrest w1) as (Hrn & Hre).
      destruct (rest w1) as [[r3 w3] e3]. simpl in *.
      split; [set_solver|].
      intros e' ->. destruct (Hre e' eq_refl) as (Hattr & evs0 & a & -> & Ha & Hfirst).
      split; [done|].
      exists (Getattr name (inr e0) :: evs0), a.
      split; [done|]. split; [done|].
      intros (n & -> & Hn)%Hfirst. exists n. split; [done|].
      rewrite names_accessed_app in Hrn.
      change (names_accessed (Getattr name (inr e0) :: ?l))
        with (name :: names_accessed l).
      assert (n ∈ names) by set_solver. set_solver.
    + simpl. split; [set_solver|]. intros e' [= <-]. split; [done|].
      exists [], (Getattr name (inr e0)). split; [done|]. split; [done|].
      intros _. exists name. split; [done|]. set_solver.
Qed.

Lemma raises_ok_for_attr attrs : forall names rest,
  NoDup (attrs ++ names) -> raises_ok names rest ->
  raises_ok (attrs ++ names) (for_attr attrs rest).
Proof.
  induction attrs as [|attr attrs IH]; intros names rest Hnd Hrest; [done|].
  apply NoDup_cons in Hnd as [Hfresh Hnd].
  apply raises_ok_step; [done|apply body_ok_getattr|by apply IH].
Qed.

Lemma raises_ok_for_meth meths : forall names rest,
  NoDup (meths ++ names) -> raises_ok names rest ->
  raises_ok (meths ++ names) (for_meth meths rest).
Proof.
  induction meths as [|meth meths IH]; intros names rest Hnd Hrest; [done|].
  apply NoDup_cons in Hnd as [Hfresh Hnd].
  apply raises_ok_step; [done|apply body_ok_getattr_call|by apply IH].
Qed.

Lemma length_step name m rest b k :
  (forall w, length (m w).2 <= b)%nat ->
  (forall w, length (rest w).2 <= k)%nat ->
  forall w, (length (if_hasattr name m rest w).2 <= 1 + b + k)%nat.
Proof.
  intros Hm Hrest w. unfold if_hasattr, hasattr, try_return.
  destruct (getattr name w) as [[o|e0] w1].
  - specialize (Hm w1). destruct (m w1) as [[[v|e] w2] e2]; simpl in *; [lia|].
    destruct (is_Exception e); simpl; [|lia].
    specialize (Hrest w2). destruct (rest w2) as [[r3 w3] e3]. simpl in *.
    rewrite length_app. lia.
  - destruct (is_AttributeError e0); simpl; [|lia].
    specialize (Hrest w1). destruct (rest w1) as [[r3 w3] e3]. simpl in *. lia.
Qed.

Lemma length_for_attr attrs rest k :
  (forall w, length (rest w).2 <= k)%nat ->
  forall w, (length (for_attr attrs rest w).2 <= 2 * length attrs + k)%nat.
Proof.
  intros Hrest. induction attrs as [|attr attrs IH]; [done|]. intros w.
  pose proof (length_step attr (do_getattr attr) (for_attr attrs rest) 1 _
                ltac:(intros w'; unfold do_getattr;
                      by destruct (getattr attr w')) IH w).
  simpl in *. lia.
Qed.

Lemma length_for_meth meths rest k :
  (forall w, length (rest w).2 <= k)%nat ->
  forall w, (length (for_meth meths rest w).2 <= 3 * length meths + k)%nat.
Proof.
  intros Hrest. induction meths as [|meth meths IH]; [done|]. intros w.
  pose proof (length_step meth (do_getattr_call meth) (for_meth meths rest) 2 _
                ltac:(intros w'; apply (body_ok_getattr_call meth w')) IH w).
  simpl in *. lia.
Qed.

(** [_maybe_get_target_word] makes at most 25 accesses, all to the eleven
    names it knows.  It never raises an [AttributeError]; when it raises,
    the exception is what its last access gave; and an exception under
    [Exception] gets out only from the first lookup of a name, the
    [hasattr] test that stands outside the [try]: the second lookup and
    the call of a method are guarded. *)
Theorem target_probe_raises_only_from_hasattr (w : W) :
  let run := _maybe_get_target_word w in
  (length run.2 <= 25)%nat /\
  names_accessed run.2 ⊆ target_attrs ++ target_meths /\
  forall e, run.1.1 = inr e ->
    is_AttributeError e = false /\
    exists evs0 a,
      run.2 = evs0 ++ [a] /\ access_result a = inr e /\
      (is_Exception e = true ->
       exists name, a = Getattr name (inr e) /\ name ∉ names_accessed evs0).
Proof.
  cbv zeta. split.
  - assert (forall w' : W,
              (length ((fun w0 : W => (@inl Obj PyExn PyNone, w0, @nil Access)) w').2
               <= 0)%nat)
      as Hnone by (intros ?; simpl; lia).
    pose proof (length_for_attr target_attrs _ _
                  (length_for_meth target_meths _ 0 Hnone) w) as Hlen.
    exact Hlen.
  - assert (raises_ok (target_attrs ++ target_meths ++ [])
              (@_maybe_get_target_word W _)) as Hok.
    { apply raises_ok_for_attr.
      - by apply (bool_decide_unpack _).
      - apply raises_ok_for_meth; [by apply (bool_decide_unpack _)|].
        intros w'. simpl. split; [done|]. by intros e. }
    rewrite app_nil_r in Hok. apply Hok.
Qed.

End TargetProps.

Section PlainObjects.
Import Target.
Variable attr_of : string -> Obj + PyExn.
Variable call_of : nat -> Obj + PyExn.

Lemma for_attr_absent attrs rest :
  (forall n, n ∈ attrs -> attr_of n = inr AttributeError) ->
  @for_attr unit (plain attr_of call_of) attrs rest tt
  = ((rest tt).1.1, (rest tt).1.2, misses attrs ++ (rest tt).2).
Proof.
  induction attrs as [|attr attrs IH]; intros Habs.
  - simpl. by destruct (rest tt) as [[? ?] ?].
  - cbn [for_attr]. unfold if_hasattr, hasattr. cbn [getattr plain].
    rewrite (Habs attr) by (by left). cbn [is_AttributeError].
    rewrite IH by (intros n Hn; apply Habs; by right). done.
Qed.

Lemma for_meth_absent meths rest :
  (forall n, n ∈ meths -> attr_of n = inr AttributeError) ->
  @for_meth unit (plain attr_of call_of) meths rest tt
  = ((rest tt).1.1, (rest tt).1.2, misses meths ++ (rest tt).2).
Proof.
  induction meths as [|meth meths IH]; intros Habs.
  - simpl. by destruct (rest tt) as [[? ?] ?].
  - cbn [for_meth]. unfold if_hasattr, hasattr. cbn [getattr plain].
    rewrite (Habs meth) by (by left). cbn [is_AttributeError].
    rewrite IH by (intros n Hn; apply Habs; by right). done.
Qed.

Lemma for_attr_found attrs rest i name :
  attrs !! i = Some name ->
  (forall n, n ∈ take i attrs -> attr_of n = inr AttributeError) ->
  absent (attr_of name) = false ->
  @for_attr unit (plain attr_of call_of) attrs rest tt
  = (attr_of name, tt,
     misses (take i attrs) ++ Getattr name (attr_of name)
     :: match attr_of name with
        | inl _ => [Getattr name (attr_of name)]
        | inr _ => []
        end).
Proof.
  revert i. induction attrs as [|attr attrs IH]; intros i Hi Habs Hname; [done|].
  destruct i as [|i].
  - injection Hi as ->. cbn [for_attr]. unfold if_hasattr, hasattr, try_return,
      do_getattr. cbn [getattr plain].
    destruct (attr_of name) as [o|e]; [reflexivity|].
    simpl in Hname. rewrite Hname. reflexivity.
  - cbn [for_attr]. unfold if_hasattr, hasattr. cbn [getattr plain].
    rewrite (Habs attr) by (by left). cbn [is_AttributeError].
    rewrite (IH i Hi) by (done || intros n Hn; apply Habs; by right). done.
Qed.

Lemma for_meth_yield meths :
  (@for_meth unit (plain attr_of call_of) meths
     (fun w => (inl PyNone, w, [])) tt).1
  = (first_yield attr_of call_of meths, tt).
Proof.
  induction meths as [|meth meths IH]; [done|].
  cbn [for_meth first_yield]. unfold if_hasattr, hasattr, try_return,
    do_getattr_call, TypeError. cbn [getattr call plain].
  destruct (attr_of meth) as [[v|f]|e]; simpl;
    [ | destruct (call_of f) as [o|e]; [done|];
        destruct (is_Exception e); [|done]
      | destruct (is_AttributeError e); [|done] ];
    revert IH;
    generalize (@for_meth unit (plain attr_of call_of) meths
                  (fun w => (inl PyNone, w, [])) tt);
    intros [[r3 w3] e3]; simpl; by intros [= -> ->].
Qed.

(** On a stateless validator an attribute decides as soon as it is there:
    the names before it are each looked up once and missed, and the first
    name that is not missing gives the result, be it a value (even [None]
    or another falsy one, returned after a second lookup) or an exception
    (raised by the [hasattr] test); no later name and no method is
    touched. *)
Theorem first_attribute_decides (i : nat) (name : string) :
  target_attrs !! i = Some name ->
  (forall n, n ∈ take i target_attrs -> attr_of n = inr AttributeError) ->
  absent (attr_of name) = false ->
  @_maybe_get_target_word unit (plain attr_of call_of) tt
  = (attr_of name, tt,
     misses (take i target_attrs) ++ Getattr name (attr_of name)
     :: match attr_of name with
        | inl _ => [Getattr name (attr_of name)]
        | inr _ => []
        end).
Proof. apply for_attr_found. Qed.

(** On a stateless validator with none of the attributes, the methods are
    tried in order: the result is that of the first method that is there,
    can be called and returns; a name that is missing, holds something
    that cannot be called, or whose call raises under [Exception] is
    passed over; with nothing to be found the result is [None], after each
    of the eleven names has been looked up once. *)
Theorem methods_are_tried_in_order :
  (forall n, n ∈ target_attrs -> attr_of n = inr AttributeError) ->
  let run := @_maybe_get_target_word unit (plain attr_of call_of) tt in
  run.1.1 = first_yield attr_of call_of target_meths /\
  (exists evs, run.2 = misses target_attrs ++ evs) /\
  ((forall n, n ∈ target_meths -> attr_of n = inr AttributeError) ->
   run = (inl PyNone, tt, misses (target_attrs ++ target_meths))).
Proof.
  intros Habs run. unfold run, _maybe_get_target_word.
  rewrite for_attr_absent by done.
  pose proof (for_meth_yield target_meths) as Hy.
  split; [by rewrite Hy|]. split; [by eexists|].
  intros Hmeths. rewrite for_meth_absent by done.
  unfold misses. by rewrite fmap_app, app_nil_r.
Qed.

End PlainObjects.


Section TargetFailure.
Import Target.
Context {W : Type} `{Validator W}.

(** If looking up [target] on the validator raises anything but an
    [AttributeError], [_maybe_get_target_word] raises it in turn, having
    touched nothing else: the [hasattr] test is not inside the [try]. *)
Theorem target_lookup_failure_escapes (w w1 : W) (e : PyExn) :
  getattr "target" w = (inr e, w1) ->
  is_AttributeError e = false ->
  _maybe_get_target_word w = (inr e, w1, [Getattr "target" (inr e)]).
Proof.
  intros Hget Hattr. unfold _maybe_get_target_word, target_attrs.
  cbn [for_attr]. unfold if_hasattr, hasattr. by rewrite Hget, Hattr.
Qed.

End TargetFailure.

Lemma target_lookup_failure_escapes_witness :
  @Target._maybe_get_target_word _ Target.broken_target tt
  = (inr (Target.OtherException "ValueError"), tt,
     [Target.Getattr "target" (inr (Target.OtherException "ValueError"))]).
Proof.
  exact (@target_lookup_failure_escapes _ Target.broken_target tt tt
           (Target.OtherException "ValueError") eq_refl eq_refl).
Defined.

Lemma first_attribute_decides_witness :
  @Target._maybe_get_target_word _ Target.selftest_object tt
  = (inl (Target.Data (VStr "lion")), tt,
     [Target.Getattr "target" (inl (Target.Data (VStr "lion")));
      Target.Getattr "target" (inl (Target.Data (VStr "lion")))]).
Proof.
  apply (first_attribute_decides
           (fun name => if String.eqb name "target"
                        then inl (Target.Data (VStr "lion"))
                        else inr Target.AttributeError)
           (fun _ => inr Target.TypeError) 0 "target" eq_refl);
    [|reflexivity].
  by intros n ?%elem_of_nil.
Defined.

Lemma methods_are_tried_in_order_witness :
  (@Target._maybe_get_target_word _
     (Target.plain
        (fun name => if String.eqb name "get_target" then inl (Target.Callable 0)
                     else if String.eqb name "get_word" then inl (Target.Callable 1)
                     else inr Target.AttributeError)
        (fun f => match f with
                  | O => inr (Target.OtherException "RuntimeError")
                  | _ => inl (Target.Data (VStr "lion"))
                  end)) tt).1.1
  = inl (Target.Data (VStr "lion")).
Proof.
  refine (proj1 (methods_are_tried_in_order _ _ _)).
  intros n Hn. unfold Target.target_attrs in Hn.
  repeat (apply elem_of_cons in Hn as [->|Hn]; [reflexivity|]).
  by apply elem_of_nil in Hn.
Defined.
